(** * pocketpy: value cells, value constructors and native bindings

    A shallow embedding of [src/public/values.c] together with the parts of
    the VM state its functions act on.  C pointers to cells ([py_Ref]) are
    modelled as symbolic locations into an explicit VM state, so that two
    references may alias.  Functions whose behaviour is undefined in C on
    some input (an invalid reference, a write past an allocation) return
    [None] there. *)

From Stdlib Require Import ZArith Lia.
From stdpp Require Import gmap strings list.

Open Scope Z_scope.

(** ** Public types ([pocketpy.h]) *)

(** [typedef int16_t py_Type;]  -- [0] is invalid. *)
Abbreviation py_Type := Z (only parsing).
(** [typedef uint16_t py_Name;] *)
Abbreviation py_Name := Z (only parsing).
(** [typedef int64_t py_i64;] *)
Abbreviation py_i64 := Z (only parsing).
(** [typedef double py_f64;]  A double is carried as its 64-bit IEEE-754
    pattern; the code modelled here only stores it. *)
Abbreviation py_f64 := Z (only parsing).
(** [py_CFunction] is a pointer to a native function taking [argc] and
    [argv] and returning [bool]; it is identified by its code address. *)
Abbreviation py_CFunction := Z (only parsing).
(** [PyObject*]: heap objects are never moved, so a pointer is the object's
    position in the managed heap. *)
Abbreviation addr := nat (only parsing).

(** [enum py_PredefinedTypes] *)
Definition tp_object : py_Type := 1.
Definition tp_type : py_Type := 2.
Definition tp_int : py_Type := 3.
Definition tp_float : py_Type := 4.
Definition tp_bool : py_Type := 5.
Definition tp_str : py_Type := 6.
Definition tp_str_iterator : py_Type := 7.
Definition tp_list : py_Type := 8.
Definition tp_tuple : py_Type := 9.
Definition tp_array_iterator : py_Type := 10.
Definition tp_slice : py_Type := 11.
Definition tp_range : py_Type := 12.
Definition tp_range_iterator : py_Type := 13.
Definition tp_module : py_Type := 14.
Definition tp_function : py_Type := 15.
Definition tp_nativefunc : py_Type := 16.
Definition tp_boundmethod : py_Type := 17.
Definition tp_super : py_Type := 18.
Definition tp_BaseException : py_Type := 19.
Definition tp_Exception : py_Type := 20.
Definition tp_bytes : py_Type := 21.
Definition tp_namedict : py_Type := 22.
Definition tp_locals : py_Type := 23.
Definition tp_code : py_Type := 24.
Definition tp_dict : py_Type := 25.
Definition tp_dict_items : py_Type := 26.
Definition tp_property : py_Type := 27.
Definition tp_star_wrapper : py_Type := 28.
Definition tp_staticmethod : py_Type := 29.
Definition tp_classmethod : py_Type := 30.
Definition tp_NoneType : py_Type := 31.
Definition tp_NotImplementedType : py_Type := 32.
Definition tp_ellipsis : py_Type := 33.
Definition tp_generator : py_Type := 34.
Definition tp_SystemExit : py_Type := 35.
Definition tp_KeyboardInterrupt : py_Type := 36.
Definition tp_StopIteration : py_Type := 37.
Definition tp_SyntaxError : py_Type := 38.
Definition tp_StackOverflowError : py_Type := 39.

(** Modelled from the spec: [values.c] writes the tags [tp_none_type] and
    [tp_not_implemented_type], which no header under [src/] declares; they
    are the tags of the built-in kinds [None] and [NotImplemented], which
    the public enum lists as [tp_NoneType] and [tp_NotImplementedType]. *)
Definition tp_none_type : py_Type := tp_NoneType.
Definition tp_not_implemented_type : py_Type := tp_NotImplementedType.

(** [config.h] *)
Definition PK_VM_STACK_SIZE : Z := 16384.

(** Modelled from the spec: the [BindType] enum is declared in a header that
    is not under [src/]; [values.c] only names [BindType_FUNCTION].  The
    other two kinds are the spec's staticmethods and classmethods. *)
Inductive BindType :=
  | BindType_FUNCTION
  | BindType_STATICMETHOD
  | BindType_CLASSMETHOD.

(** ** The value cell *)

(** Modelled from the spec: the payload union of [py_TValue] (the struct is
    declared in a header that is not under [src/]).  The member names are
    the ones [values.c] assigns to.  A payload is recorded as the member
    last assigned and its value; the bytes of the union are not modelled,
    so two payloads written through different members are different here
    even where their bytes would agree, and nothing is said of the bytes
    that an assignment to a narrower member leaves as they were. *)
Inductive py_Payload :=
  | _i64 (v : py_i64)
  | _f64 (v : py_f64)
  | _bool (v : bool)
  | _name (n : py_Name)
  | _cfunc (f : py_CFunction)
  | _obj (p : addr).

(** Modelled from the spec: the value cell, "a type tag ([0] means the
    distinguished non-value nil), an is-pointer flag, a payload".  The
    field names are the ones [values.c] assigns to. *)
Record py_TValue := mk_TValue {
  type : py_Type;
  is_ptr : bool;
  payload : py_Payload;
}.

(** ** Heap objects, type records and the VM *)

(** Modelled from the spec: the heap object header, its slots, its optional
    attribute store and its user-data region.  A user-data byte is [None]
    until it has been written. *)
Record PyObject := mk_PyObject {
  ob_type : py_Type;
  gc_marked : bool;
  ob_slots : Z;
  slot_cells : list py_TValue;
  ob_dict : option (gmap Z py_TValue);
  userdata : list (option Z);
}.

(** Modelled from the spec: the per-type record of the type registry. *)
Record pk_TypeInfo := mk_TypeInfo {
  tp_name : string;
  base : py_Type;
  tp_self : py_TValue;
  magic : list py_TValue;
}.

(** Modelled from the spec: the state of the current VM ([pk_current_vm];
    the struct is declared in a header that is not under [src/]): the
    managed heap, the type registry, the name pool, the register bank, the
    value stack, the last-return register, the current-exception slot and
    the recorded unwind point.  [locals] holds the [py_TValue] automatic
    variables of the running native code: they are not part of the VM
    proper, but a [py_Ref] may point at them. *)
Record VM := mk_VM {
  heap : list PyObject;
  types : list pk_TypeInfo;
  names : list string;
  reg : list py_TValue;
  stack : list py_TValue;
  last_retval : py_TValue;
  curr_exception : py_TValue;
  unwind_point : nat;
  locals : list py_TValue;
}.

Definition set_heap (vm : VM) (h : list PyObject) : VM :=
  mk_VM h (types vm) (names vm) (reg vm) (stack vm) (last_retval vm)
        (curr_exception vm) (unwind_point vm) (locals vm).
Definition set_types (vm : VM) (t : list pk_TypeInfo) : VM :=
  mk_VM (heap vm) t (names vm) (reg vm) (stack vm) (last_retval vm)
        (curr_exception vm) (unwind_point vm) (locals vm).
Definition set_names (vm : VM) (n : list string) : VM :=
  mk_VM (heap vm) (types vm) n (reg vm) (stack vm) (last_retval vm)
        (curr_exception vm) (unwind_point vm) (locals vm).
Definition set_reg (vm : VM) (r : list py_TValue) : VM :=
  mk_VM (heap vm) (types vm) (names vm) r (stack vm) (last_retval vm)
        (curr_exception vm) (unwind_point vm) (locals vm).
Definition set_stack (vm : VM) (s : list py_TValue) : VM :=
  mk_VM (heap vm) (types vm) (names vm) (reg vm) s (last_retval vm)
        (curr_exception vm) (unwind_point vm) (locals vm).
Definition set_last_retval (vm : VM) (c : py_TValue) : VM :=
  mk_VM (heap vm) (types vm) (names vm) (reg vm) (stack vm) c
        (curr_exception vm) (unwind_point vm) (locals vm).
Definition set_curr_exception (vm : VM) (c : py_TValue) : VM :=
  mk_VM (heap vm) (types vm) (names vm) (reg vm) (stack vm) (last_retval vm)
        c (unwind_point vm) (locals vm).
Definition set_locals (vm : VM) (l : list py_TValue) : VM :=
  mk_VM (heap vm) (types vm) (names vm) (reg vm) (stack vm) (last_retval vm)
        (curr_exception vm) (unwind_point vm) l.

(** ** References

    A [py_Ref] is a pointer to a cell.  The cells the API hands out live in
    the register bank, on the value stack, in a slot of a heap object, in a
    type record (the type object and the magic slots), or in the
    last-return register; native code also passes the address of its own
    automatic variables. *)
Inductive py_Ref :=
  | ref_reg (i : nat)
  | ref_stack (i : nat)
  | ref_local (i : nat)
  | ref_slot (p : addr) (i : nat)
  | ref_tpobject (t : py_Type)
  | ref_magic (t : py_Type) (name : py_Name)
  | ref_retval.

#[global] Instance py_Ref_eq_dec : EqDecision py_Ref.
Proof. solve_decision. Defined.

(** [types[t]] *)
Definition type_info (vm : VM) (t : py_Type) : option pk_TypeInfo :=
  if decide (0 <= t) then types vm !! Z.to_nat t else None.

(** [*r] *)
Definition load (vm : VM) (r : py_Ref) : option py_TValue :=
  match r with
  | ref_reg i => reg vm !! i
  | ref_stack i => stack vm !! i
  | ref_local i => locals vm !! i
  | ref_slot p i => o ← heap vm !! p; slot_cells o !! i
  | ref_tpobject t => ti ← type_info vm t; Some (tp_self ti)
  | ref_magic t n =>
      ti ← type_info vm t;
      if decide (0 <= n) then magic ti !! Z.to_nat n else None
  | ref_retval => Some (last_retval vm)
  end.

Definition set_slot_cells (o : PyObject) (cs : list py_TValue) : PyObject :=
  mk_PyObject (ob_type o) (gc_marked o) (ob_slots o) cs (ob_dict o) (userdata o).
Definition set_ob_dict (o : PyObject) (d : option (gmap Z py_TValue)) : PyObject :=
  mk_PyObject (ob_type o) (gc_marked o) (ob_slots o) (slot_cells o) d (userdata o).
Definition set_userdata (o : PyObject) (ud : list (option Z)) : PyObject :=
  mk_PyObject (ob_type o) (gc_marked o) (ob_slots o) (slot_cells o) (ob_dict o) ud.
Definition set_tp_self (ti : pk_TypeInfo) (c : py_TValue) : pk_TypeInfo :=
  mk_TypeInfo (tp_name ti) (base ti) c (magic ti).
Definition set_magic (ti : pk_TypeInfo) (m : list py_TValue) : pk_TypeInfo :=
  mk_TypeInfo (tp_name ti) (base ti) (tp_self ti) m.

(** The raw update behind [*r = c]; it changes nothing when [r] is not a
    valid location. *)
Definition poke (vm : VM) (r : py_Ref) (c : py_TValue) : VM :=
  match r with
  | ref_reg i => set_reg vm (<[i := c]> (reg vm))
  | ref_stack i => set_stack vm (<[i := c]> (stack vm))
  | ref_local i => set_locals vm (<[i := c]> (locals vm))
  | ref_slot p i =>
      set_heap vm (alter (fun o => set_slot_cells o (<[i := c]> (slot_cells o))) p (heap vm))
  | ref_tpobject t =>
      set_types vm (alter (fun ti => set_tp_self ti c) (Z.to_nat t) (types vm))
  | ref_magic t n =>
      set_types vm (alter (fun ti => set_magic ti (<[Z.to_nat n := c]> (magic ti)))
                          (Z.to_nat t) (types vm))
  | ref_retval => set_last_retval vm c
  end.

(** [*r = c]; undefined when [r] does not point at a cell. *)
Definition store (vm : VM) (r : py_Ref) (c : py_TValue) : option VM :=
  match load vm r with
  | Some _ => Some (poke vm r c)
  | None => None
  end.

(** Writes to one field of the cell [*out]. *)
Definition set_type (vm : VM) (out : py_Ref) (t : py_Type) : option VM :=
  c ← load vm out; store vm out (mk_TValue t (is_ptr c) (payload c)).
Definition set_is_ptr (vm : VM) (out : py_Ref) (b : bool) : option VM :=
  c ← load vm out; store vm out (mk_TValue (type c) b (payload c)).
Definition set_payload (vm : VM) (out : py_Ref) (u : py_Payload) : option VM :=
  c ← load vm out; store vm out (mk_TValue (type c) (is_ptr c) u).

(** ** Machine integers and raw bytes *)

Definition INT_MAX : Z := 2147483647.

(** Conversion of an integer to the 32-bit [int]. *)
Definition to_int (x : Z) : Z := (x + 2 ^ 31) mod 2 ^ 32 - 2 ^ 31.

(** [sizeof(int)]; [py_newbytes] documents it as 4 bytes. *)
Definition sizeof_int : Z := 4.

(** The object representation of an [int], least significant byte first,
    and its inverse. *)
Definition int_bytes (x : Z) : list Z :=
  [x mod 256; (x / 256) mod 256; (x / 65536) mod 256; (x / 16777216) mod 256].
Definition bytes_int (bs : list Z) : option Z :=
  match bs with
  | [b0; b1; b2; b3] => Some (to_int (b0 + 256 * b1 + 65536 * b2 + 16777216 * b3))
  | _ => None
  end.

(** Writing [bs] at byte offset [off] of a user-data region; undefined when
    the bytes do not fit. *)
Definition write_bytes (ud : list (option Z)) (off : Z) (bs : list Z)
  : option (list (option Z)) :=
  if decide (0 <= off ∧ off + Z.of_nat (length bs) <= Z.of_nat (length ud)) then
    Some (take (Z.to_nat off) ud ++ (Some <$> bs)
            ++ drop (Z.to_nat off + length bs)%nat ud)
  else None.

(** The [n] bytes a [memcpy] reads from [data]; undefined when [n] is
    negative or the array is shorter. *)
Definition read_bytes (data : list Z) (n : Z) : option (list Z) :=
  if decide (0 <= n ∧ n <= Z.of_nat (length data)) then Some (take (Z.to_nat n) data)
  else None.

(** [strlen]: undefined on an array with no terminating zero. *)
Fixpoint strlen (data : list Z) : option Z :=
  match data with
  | [] => None
  | b :: rest => if decide (b = 0) then Some 0 else Z.succ <$> strlen rest
  end.

(** A write into the user-data region of the object at [p]
    ([PyObject__value(obj)] is the start of that region). *)
Definition ud_write (vm : VM) (p : addr) (off : Z) (bs : list Z) : option VM :=
  o ← heap vm !! p;
  ud ← write_bytes (userdata o) off bs;
  Some (set_heap vm (<[p := set_userdata o ud]> (heap vm))).

(** ** The managed heap *)

(** The distinguished non-value [nil]: type tag [0].  A nil cell as the
    allocator leaves it is not a pointer and has a zero payload. *)
Definition nil_cell : py_TValue := mk_TValue 0 false (_i64 0).

(** Modelled from the spec: [pk_ManagedHeap__gcnew], the allocator (its
    source is not under [src/]).  "Header fields are filled; slots are
    initialized to nil; user-data is uninitialized bytes."  A slot count of
    [-1] asks for an attribute store instead of slots.  Both sizes are
    [int]s: [py_newobject] hands its [int slots] and [int udsize] on as
    they are, and the callers below convert what they compute to [int]
    before the call.  A negative [udsize] gives an object without user
    data, so that every write into it is undefined.  Collection is not
    modelled: objects are never freed or moved. *)
Definition pk_ManagedHeap__gcnew (vm : VM) (t : py_Type) (slots : Z) (udsize : Z)
  : VM * addr :=
  let obj := {| ob_type := t; gc_marked := false; ob_slots := slots;
                slot_cells := replicate (Z.to_nat slots) nil_cell;
                ob_dict := if decide (slots = -1) then Some ∅ else None;
                userdata := replicate (Z.to_nat udsize) None |} in
  (set_heap vm (heap vm ++ [obj]), length (heap vm)).

(** Modelled from the spec: [c11_string] is a length-prefixed byte buffer;
    [sizeof(c11_string)] is the size of the length prefix. *)
Definition sizeof_c11_string : Z := sizeof_int.

(** Modelled from the spec: [c11_string__ctor2] fills a string's user data
    with the length, the [size] bytes of [data] and a terminating zero. *)
Definition c11_string__ctor2 (vm : VM) (ud : addr) (data : list Z) (size : Z)
  : option VM :=
  src ← read_bytes data size;
  vm ← ud_write vm ud 0 (int_bytes size);
  vm ← ud_write vm ud sizeof_c11_string src;
  ud_write vm ud (sizeof_c11_string + size) [0].

(** ** Helpers of the public API that [values.c] calls *)

(** Modelled from the spec: [py_setslot(self, i, val)] sets the i-th slot of
    the object [self] points to ("the object must have slots and [i] must
    be in valid range"). *)
Definition py_setslot (vm : VM) (self : py_Ref) (i : Z) (val : py_Ref) : option VM :=
  c ← load vm self;
  v ← load vm val;
  match is_ptr c, payload c with
  | true, _obj p => if decide (0 <= i) then store vm (ref_slot p (Z.to_nat i)) v else None
  | _, _ => None
  end.

(** Modelled from the spec: [py_setdict(self, name, val)] sets an item of the
    attribute store of the object [self] points to. *)
Definition py_setdict (vm : VM) (self : py_Ref) (name : py_Name) (val : py_Ref)
  : option VM :=
  c ← load vm self;
  v ← load vm val;
  match is_ptr c, payload c with
  | true, _obj p =>
      o ← heap vm !! p;
      d ← ob_dict o;
      Some (set_heap vm (<[p := set_ob_dict o (Some (<[name := v]> d))]> (heap vm)))
  | _, _ => None
  end.

(** Modelled from the spec: [py_tpobject(type)] is the reference to the type
    object kept in the type's registry record. *)
Definition py_tpobject (t : py_Type) : py_Ref := ref_tpobject t.

(** Position of the first occurrence of [s]. *)
Fixpoint index_of (s : string) (l : list string) : option nat :=
  match l with
  | [] => None
  | x :: rest => if decide (x = s) then Some 0%nat else S <$> index_of s rest
  end.

(** Modelled from the spec: the name pool.  [py_name] interns a string:
    an already interned string gets its id back, a new one gets the next
    id.  Ids are 16-bit and [0] is reserved, so the pool holds at most
    65535 names; interning into a full pool aborts ([None]). *)
Definition py_name (vm : VM) (s : string) : option (py_Name * VM) :=
  match index_of s (names vm) with
  | Some i => Some (Z.of_nat (S i), vm)
  | None =>
      if decide (Z.of_nat (length (names vm)) < 65535) then
        Some (Z.of_nat (S (length (names vm))), set_names vm (names vm ++ [s]))
      else None
  end.

(** Modelled from the spec: [py_name2str] looks an id up in the pool. *)
Definition py_name2str (vm : VM) (n : py_Name) : option string :=
  if decide (1 <= n) then names vm !! Z.to_nat (n - 1) else None.

(** ** [values.c] *)

Definition py_newint (vm : VM) (out : py_Ref) (val : py_i64) : option VM :=
  vm ← set_type vm out tp_int;
  vm ← set_is_ptr vm out false;
  set_payload vm out (_i64 val).

Definition py_newfloat (vm : VM) (out : py_Ref) (val : py_f64) : option VM :=
  vm ← set_type vm out tp_float;
  vm ← set_is_ptr vm out false;
  set_payload vm out (_f64 val).

(** [out->_bool = val] writes the one byte of the [_bool] member; the
    payload is recorded as that member (see [py_Payload]). *)
Definition py_newbool (vm : VM) (out : py_Ref) (val : bool) : option VM :=
  vm ← set_type vm out tp_bool;
  vm ← set_is_ptr vm out false;
  set_payload vm out (_bool val).

Definition py_newnone (vm : VM) (out : py_Ref) : option VM :=
  vm ← set_type vm out tp_none_type;
  set_is_ptr vm out false.

Definition py_newnotimplemented (vm : VM) (out : py_Ref) : option VM :=
  vm ← set_type vm out tp_not_implemented_type;
  set_is_ptr vm out false.

Definition py_newellipsis (vm : VM) (out : py_Ref) : option VM :=
  vm ← set_type vm out tp_ellipsis;
  set_is_ptr vm out false.

Definition py_newnull (vm : VM) (out : py_Ref) : option VM :=
  set_type vm out 0.

Definition py_newstrn (vm : VM) (out : py_Ref) (data : list Z) (size : Z)
  : option VM :=
  let total_size := to_int (sizeof_c11_string + size + 1) in
  let '(vm, obj) := pk_ManagedHeap__gcnew vm tp_str 0 total_size in
  vm ← c11_string__ctor2 vm obj data size;
  vm ← set_type vm out tp_str;
  vm ← set_is_ptr vm out true;
  set_payload vm out (_obj obj).

Definition py_newstr (vm : VM) (out : py_Ref) (data : list Z) : option VM :=
  n ← strlen data;
  py_newstrn vm out data (to_int n).

(** [sizeof(int) + size] is converted to the allocator's [int udsize]: for
    [size > INT_MAX - 4] the user data asked for is negative, and the
    write of the length is undefined. *)
Definition py_newbytes (vm : VM) (out : py_Ref) (data : list Z) (size : Z)
  : option VM :=
  let '(vm, obj) :=
    pk_ManagedHeap__gcnew vm tp_bytes 0 (to_int (sizeof_int + size)) in
  vm ← ud_write vm obj 0 (int_bytes size);
  src ← read_bytes data size;
  vm ← ud_write vm obj sizeof_int src;
  vm ← set_type vm out tp_bytes;
  vm ← set_is_ptr vm out true;
  set_payload vm out (_obj obj).

Definition py_newfunction2 (vm : VM) (out : py_Ref) (f : py_CFunction)
    (sig : string) (bt : BindType) (docstring : option string)
    (upvalue : option py_Ref) : option VM :=
  Some vm.

Definition py_newfunction (vm : VM) (out : py_Ref) (f : py_CFunction)
    (sig : string) : option VM :=
  py_newfunction2 vm out f sig BindType_FUNCTION None None.

Definition py_newnativefunc (vm : VM) (out : py_Ref) (f : py_CFunction)
  : option VM :=
  vm ← set_type vm out tp_nativefunc;
  vm ← set_is_ptr vm out false;
  set_payload vm out (_cfunc f).

(** Entering and leaving the scope of a [py_TValue] automatic variable whose
    initial content is [c]. *)
Definition push_local (vm : VM) (c : py_TValue) : VM :=
  set_locals vm (locals vm ++ [c]).
Definition pop_local (vm : VM) : VM :=
  set_locals vm (take (length (locals vm) - 1)%nat (locals vm)).

(** [tmp0] is the indeterminate initial content of the local [tmp]. *)
Definition py_bindmethod2 (vm : VM) (t : py_Type) (name : string)
    (f : py_CFunction) (bt : BindType) (tmp0 : py_TValue) : option VM :=
  let tmp := ref_local (length (locals vm)) in
  let vm := push_local vm tmp0 in
  vm ← py_newnativefunc vm tmp f;
  '(n, vm) ← py_name vm name;
  vm ← py_setdict vm (py_tpobject t) n tmp;
  Some (pop_local vm).

Definition py_bindmethod (vm : VM) (t : py_Type) (name : string)
    (f : py_CFunction) (tmp0 : py_TValue) : option VM :=
  py_bindmethod2 vm t name f BindType_FUNCTION tmp0.

Definition py_bindnativefunc (vm : VM) (obj : py_Ref) (name : string)
    (f : py_CFunction) (tmp0 : py_TValue) : option VM :=
  let tmp := ref_local (length (locals vm)) in
  let vm := push_local vm tmp0 in
  vm ← py_newnativefunc vm tmp f;
  '(n, vm) ← py_name vm name;
  vm ← py_setdict vm obj n tmp;
  Some (pop_local vm).

Definition py_newobject (vm : VM) (out : py_Ref) (t : py_Type) (slots : Z)
    (udsize : Z) : option VM :=
  let '(vm, obj) := pk_ManagedHeap__gcnew vm t slots udsize in
  vm ← set_type vm out t;
  vm ← set_is_ptr vm out true;
  set_payload vm out (_obj obj).

Definition py_newslice (vm : VM) (out start stop step : py_Ref) : option VM :=
  vm ← py_newobject vm out tp_slice 3 0;
  vm ← py_setslot vm out 0 start;
  vm ← py_setslot vm out 1 stop;
  py_setslot vm out 2 step.

(** ** The value stack and the exception slot *)

(** Modelled from the spec: raising an exception of type [t] leaves an
    exception object (two slots: the argument tuple and the inner
    exception) in the current-exception slot. *)
Definition py_exception (vm : VM) (t : py_Type) : VM :=
  let '(vm, obj) := pk_ManagedHeap__gcnew vm t 2 0 in
  set_curr_exception vm (mk_TValue t true (_obj obj)).

(** Modelled from the spec: [py_push] (its source is not under [src/]).
    "Pushing onto the value stack when height equals [PK_VM_STACK_SIZE]
    raises [StackOverflowError]"; otherwise the cell [*src] becomes the new
    top of the stack. *)
Definition py_push (vm : VM) (src : py_Ref) : option VM :=
  c ← load vm src;
  if decide (PK_VM_STACK_SIZE <= Z.of_nat (length (stack vm))) then
    Some (py_exception vm tp_StackOverflowError)
  else
    Some (set_stack vm (stack vm ++ [c])).

(** ** The type registry *)

(** [py_isnil(self)] is [py_istype(self, 0)]. *)
Definition py_isnil (c : py_TValue) : bool := bool_decide (type c = 0).

(** Modelled from the spec: [py_tpgetmagic(type, name)] "returns the slot in
    T only (never walks), yielding a writable reference whose current value
    may be nil". *)
Definition py_tpgetmagic (t : py_Type) (name : py_Name) : py_Ref := ref_magic t name.

(** Modelled from the spec: the walk of [py_tpfindmagic] (its source is not
    under [src/]), which "returns the first non-nil entry found while
    walking T -> base -> ...".  The walk stops at the root, whose base is
    the invalid type [0].  The outer [None] is an undefined run: a slot
    that does not exist, or more steps than allowed; the inner [None] is
    the C [NULL]. *)
Fixpoint tpfindmagic_walk (steps : nat) (vm : VM) (t : py_Type) (name : py_Name)
  : option (option py_Ref) :=
  match steps with
  | O => None
  | S steps =>
      f ← load vm (py_tpgetmagic t name);
      if py_isnil f then
        ti ← type_info vm t;
        if decide (base ti = 0) then Some None
        else tpfindmagic_walk steps vm (base ti) name
      else Some (Some (py_tpgetmagic t name))
  end.

(** Modelled from the spec: [py_tpfindmagic(type, name)], "search the magic
    method from the given type to the base type; return NULL if not
    found".  A chain is never longer than the registry. *)
Definition py_tpfindmagic (vm : VM) (t : py_Type) (name : py_Name)
  : option (option py_Ref) :=
  tpfindmagic_walk (length (types vm)) vm t name.

(** The spec's wording of the same lookup: the ancestors of [T] in
    base-chain order, and the first of them whose own slot is not nil. *)
Inductive base_chain (vm : VM) : py_Type -> list py_Type -> Prop :=
  | base_chain_root t ti :
      type_info vm t = Some ti -> base ti = 0 -> base_chain vm t [t]
  | base_chain_step t ti l :
      type_info vm t = Some ti -> base ti <> 0 ->
      base_chain vm (base ti) l -> base_chain vm t (t :: l).

Fixpoint first_non_nil (vm : VM) (name : py_Name) (ts : list py_Type)
  : option py_Ref :=
  match ts with
  | [] => None
  | t :: rest =>
      match load vm (py_tpgetmagic t name) with
      | Some c => if py_isnil c then first_non_nil vm name rest
                  else Some (py_tpgetmagic t name)
      | None => first_non_nil vm name rest
      end
  end.

(** The ancestors computed: at most as many as there are registered types. *)
Fixpoint ancestors_upto (steps : nat) (vm : VM) (t : py_Type) : list py_Type :=
  match steps with
  | O => []
  | S steps =>
      match type_info vm t with
      | Some ti => t :: (if decide (base ti = 0) then []
                         else ancestors_upto steps vm (base ti))
      | None => []
      end
  end.
Definition ancestors (vm : VM) (t : py_Type) : list py_Type :=
  ancestors_upto (length (types vm)) vm t.

(** A registry as type creation builds it: entry [0] is the invalid type,
    every other type was registered after its base (the root's base is
    [0]), and every type has a slot for the magic name at hand. *)
Definition registry_wf (vm : VM) : Prop :=
  forall (i : nat) ti, types vm !! i = Some ti -> (0 < i)%nat ->
    0 <= base ti < Z.of_nat i.
Definition magic_name_ok (vm : VM) (name : py_Name) : Prop :=
  0 <= name /\
  forall (i : nat) ti, types vm !! i = Some ti -> (Z.to_nat name < length (magic ti))%nat.

(** ** Sequences of API calls *)

(** The calls of [values.c] and of the helpers above, and their execution
    one after the other. *)
Inductive api_call :=
  | call_newint (out : py_Ref) (val : py_i64)
  | call_newfloat (out : py_Ref) (val : py_f64)
  | call_newbool (out : py_Ref) (val : bool)
  | call_newnone (out : py_Ref)
  | call_newnotimplemented (out : py_Ref)
  | call_newellipsis (out : py_Ref)
  | call_newnull (out : py_Ref)
  | call_newstr (out : py_Ref) (data : list Z)
  | call_newstrn (out : py_Ref) (data : list Z) (size : Z)
  | call_newbytes (out : py_Ref) (data : list Z) (size : Z)
  | call_newfunction (out : py_Ref) (f : py_CFunction) (sig : string)
  | call_newfunction2 (out : py_Ref) (f : py_CFunction) (sig : string)
      (bt : BindType) (docstring : option string) (upvalue : option py_Ref)
  | call_newnativefunc (out : py_Ref) (f : py_CFunction)
  | call_bindmethod (t : py_Type) (name : string) (f : py_CFunction) (tmp0 : py_TValue)
  | call_bindmethod2 (t : py_Type) (name : string) (f : py_CFunction)
      (bt : BindType) (tmp0 : py_TValue)
  | call_bindnativefunc (obj : py_Ref) (name : string) (f : py_CFunction)
      (tmp0 : py_TValue)
  | call_newslice (out start stop step : py_Ref)
  | call_newobject (out : py_Ref) (t : py_Type) (slots udsize : Z)
  | call_setslot (self : py_Ref) (i : Z) (val : py_Ref)
  | call_setdict (self : py_Ref) (name : py_Name) (val : py_Ref)
  | call_name (s : string)
  | call_push (src : py_Ref).

Definition run_call (vm : VM) (c : api_call) : option VM :=
  match c with
  | call_newint out v => py_newint vm out v
  | call_newfloat out v => py_newfloat vm out v
  | call_newbool out v => py_newbool vm out v
  | call_newnone out => py_newnone vm out
  | call_newnotimplemented out => py_newnotimplemented vm out
  | call_newellipsis out => py_newellipsis vm out
  | call_newnull out => py_newnull vm out
  | call_newstr out data => py_newstr vm out data
  | call_newstrn out data size => py_newstrn vm out data size
  | call_newbytes out data size => py_newbytes vm out data size
  | call_newfunction out f sig => py_newfunction vm out f sig
  | call_newfunction2 out f sig bt doc up => py_newfunction2 vm out f sig bt doc up
  | call_newnativefunc out f => py_newnativefunc vm out f
  | call_bindmethod t name f tmp0 => py_bindmethod vm t name f tmp0
  | call_bindmethod2 t name f bt tmp0 => py_bindmethod2 vm t name f bt tmp0
  | call_bindnativefunc obj name f tmp0 => py_bindnativefunc vm obj name f tmp0
  | call_newslice out start stop step => py_newslice vm out start stop step
  | call_newobject out t slots udsize => py_newobject vm out t slots udsize
  | call_setslot self i val => py_setslot vm self i val
  | call_setdict self name val => py_setdict vm self name val
  | call_name s => snd <$> py_name vm s
  | call_push src => py_push vm src
  end.

Fixpoint run_calls (vm : VM) (cs : list api_call) : option VM :=
  match cs with
  | [] => Some vm
  | c :: rest => vm ← run_call vm c; run_calls vm rest
  end.

(** The user data of the object at [p], when all of it has been written. *)
Definition ud_bytes (vm : VM) (p : addr) : option (list Z) :=
  o ← heap vm !! p; mapM id (userdata o).

(** The cell [py_newnativefunc] writes. *)
Definition nativefunc_cell (f : py_CFunction) : py_TValue :=
  mk_TValue tp_nativefunc false (_cfunc f).

(** What binding [f] under [name] on the type [t] amounts to: the name is
    interned and the attribute store of the heap object that the type
    object points to maps it to a plain native-function cell. *)
Definition bind_effect (vm : VM) (t : py_Type) (name : string)
    (f : py_CFunction) : option VM :=
  '(n, vm1) ← py_name vm name;
  c ← load vm1 (py_tpobject t);
  match is_ptr c, payload c with
  | true, _obj p =>
      o ← heap vm1 !! p;
      d ← ob_dict o;
      Some (set_heap vm1
              (<[p := set_ob_dict o (Some (<[n := nativefunc_cell f]> d))]> (heap vm1)))
  | _, _ => None
  end.

(** The name pool as interning builds it: no string is stored twice and
    the ids fit 16 bits. *)
Definition pool_wf (vm : VM) : Prop :=
  NoDup (names vm) /\ Z.of_nat (length (names vm)) <= 65535.

(** One step in the life of the pool: well-formedness is kept and the
    stored names stay where they are. *)
Definition pool_step (vm vm' : VM) : Prop :=
  (pool_wf vm -> pool_wf vm') /\ names vm `prefix_of` names vm'.

(** The object at [p] keeps its type, slot count and user data, and all
    objects do. *)
Definition obj_kept (vm vm' : VM) (p : addr) : Prop :=
  forall o, heap vm !! p = Some o ->
    exists o', heap vm' !! p = Some o' /\ ob_type o' = ob_type o /\
               ob_slots o' = ob_slots o /\ userdata o' = userdata o.

Definition heap_frame (vm vm' : VM) : Prop := forall p, obj_kept vm vm' p.

(** A constructor call that succeeds and leaves in [*out] an immediate cell
    of type [t]. *)
Definition writes_immediate (r : option VM) (out : py_Ref) (t : py_Type) : Prop :=
  exists vm' c, r = Some vm' /\ load vm' out = Some c /\
                type c = t /\ is_ptr c = false.

(** A constructor call that succeeds and leaves in [*out] a pointer cell of
    type [t] to a heap object whose header records the same type. *)
Definition writes_pointer (r : option VM) (out : py_Ref) (t : py_Type) : Prop :=
  exists vm' c p o, r = Some vm' /\ load vm' out = Some c /\
                    type c = t /\ is_ptr c = true /\ payload c = _obj p /\
                    heap vm' !! p = Some o /\ ob_type o = type c.

(** ** A small concrete state

    Three registered types ([object], [type] and [int], the latter two
    derived from [object]) with three magic slots each, their type objects
    on the heap, two interned names, three registers and three cells on
    the stack. *)
Definition int_cell (v : py_i64) : py_TValue := mk_TValue tp_int false (_i64 v).

Definition type_object : PyObject :=
  mk_PyObject tp_type false (-1) [] (Some ∅) [].

Definition example_types : list pk_TypeInfo :=
  [ mk_TypeInfo "" 0 nil_cell [nil_cell; nil_cell; nil_cell];
    mk_TypeInfo "object" 0 (mk_TValue tp_type true (_obj 0%nat))
                [nil_cell; nativefunc_cell 100; nil_cell];
    mk_TypeInfo "type" 1 (mk_TValue tp_type true (_obj 1%nat))
                [nil_cell; nil_cell; nil_cell];
    mk_TypeInfo "int" 1 (mk_TValue tp_type true (_obj 2%nat))
                [nil_cell; nil_cell; nativefunc_cell 200] ].

Definition example_vm : VM :=
  {| heap := [type_object; type_object; type_object];
     types := example_types;
     names := ["__new__"; "__add__"];
     reg := [int_cell 7; int_cell 8; int_cell 9];
     stack := [nativefunc_cell 300; int_cell 1; int_cell 2];
     last_retval := nil_cell;
     curr_exception := nil_cell;
     unwind_point := 0;
     locals := [] |}.

(** A state whose value stack is full. *)
Definition full_stack_vm : VM :=
  set_stack example_vm (replicate (Z.to_nat PK_VM_STACK_SIZE) nil_cell).

(** C5 as the spec words it, at one call: the new object's three slots are
    the cells [start], [stop] and [step] held when the call was made. *)
Definition newslice_holds_arguments (vm : VM) (out start stop step : py_Ref) : Prop :=
  forall a b c,
    load vm start = Some a -> load vm stop = Some b -> load vm step = Some c ->
    exists vm' p o,
      py_newslice vm out start stop step = Some vm' /\
      load vm' out = Some (mk_TValue tp_slice true (_obj p)) /\
      heap vm' !! p = Some o /\ ob_type o = tp_slice /\
      slot_cells o = [a; b; c].

(** ** Vocabulary for the properties of [values.c] *)

(** The calls that build an immediate value in place, with the reference
    they write through. *)
Definition immediate_call (c : api_call) : option py_Ref :=
  match c with
  | call_newint out _ | call_newfloat out _ | call_newbool out _
  | call_newnone out | call_newnotimplemented out | call_newellipsis out
  | call_newnull out | call_newnativefunc out _ => Some out
  | _ => None
  end.

(** The cell such a call leaves in [*out], given the cell [old] it finds
    there. *)
Definition immediate_cell (c : api_call) (old : py_TValue) : py_TValue :=
  match c with
  | call_newint _ v => mk_TValue tp_int false (_i64 v)
  | call_newfloat _ v => mk_TValue tp_float false (_f64 v)
  | call_newbool _ v => mk_TValue tp_bool false (_bool v)
  | call_newnativefunc _ f => mk_TValue tp_nativefunc false (_cfunc f)
  | call_newnone _ => mk_TValue tp_none_type false (payload old)
  | call_newnotimplemented _ => mk_TValue tp_not_implemented_type false (payload old)
  | call_newellipsis _ => mk_TValue tp_ellipsis false (payload old)
  | call_newnull _ => mk_TValue 0 (is_ptr old) (payload old)
  | _ => old
  end.

(** The constructors that assign all three fields of the cell through a
    member as wide as the payload itself, a 64-bit integer or float.
    ([py_newbool] assigns one byte of it, and the width of the function
    pointer [py_newnativefunc] assigns depends on the platform.) *)
Definition full_constructor (c : api_call) : bool :=
  match c with
  | call_newint _ _ | call_newfloat _ _ => true
  | _ => false
  end.

(** The cell invariant for one cell, and for every cell a reference can
    address. *)
Definition cell_ok (vm : VM) (c : py_TValue) : Prop :=
  is_ptr c = true ->
  exists p o, payload c = _obj p /\ heap vm !! p = Some o /\ ob_type o = type c.

Definition cells_ok (vm : VM) : Prop :=
  forall r c, load vm r = Some c -> cell_ok vm c.

(** Every object keeps its recorded type. *)
Definition types_kept (vm vm' : VM) : Prop :=
  forall p o, heap vm !! p = Some o ->
    exists o', heap vm' !! p = Some o' /\ ob_type o' = ob_type o.

Definition is_newnull (c : api_call) : bool :=
  match c with call_newnull _ => true | _ => false end.

(** A heap constructor's outcome: exactly one object is added, at an
    address nothing lived at; [*out] points at it with tag [t]; every
    other cell and every existing object is as before. *)
Definition allocates_fresh (vm : VM) (out : py_Ref) (t : py_Type)
    (r : option VM) : Prop :=
  exists vm' o,
    r = Some vm' /\
    length (heap vm') = S (length (heap vm)) /\
    heap vm !! length (heap vm) = None /\
    heap vm' !! length (heap vm) = Some o /\ ob_type o = t /\
    load vm' out = Some (mk_TValue t true (_obj (length (heap vm)))) /\
    (forall r', r' <> out -> is_Some (load vm r') -> load vm' r' = load vm r') /\
    heap_frame vm vm' /\ names vm' = names vm.

(** The heap object [*self] points at together with its attribute store,
    when [*self] is a pointer cell to an object that has one. *)
Definition dict_of (vm : VM) (self : py_Ref)
  : option (addr * PyObject * gmap Z py_TValue) :=
  c ← load vm self;
  match is_ptr c, payload c with
  | true, _obj p => o ← heap vm !! p; d ← ob_dict o; Some (p, o, d)
  | _, _ => None
  end.

(** Modelled from the spec: [py_getdict(self, name)], "get an item from the
    object's __dict__; return NULL if not found".  The item is given by
    value: the inner [None] is [NULL], the outer [None] a call on something
    that has no attribute store. *)
Definition py_getdict (vm : VM) (self : py_Ref) (name : py_Name)
  : option (option py_TValue) :=
  '(_, _, d) ← dict_of vm self; Some (d !! name).

(** The macro [py_bindmagic(type, __magic__, f)], which expands to
    [py_newnativefunc(py_tpgetmagic(type, __magic__), f)]. *)
Definition py_bindmagic (vm : VM) (t : py_Type) (name : py_Name)
    (f : py_CFunction) : option VM :=
  py_newnativefunc vm (py_tpgetmagic t name) f.

(** The macro [py_offset(p, i)] for an argument [p] that is an identifier
    or another primary expression, as [argv] is in [py_arg]: the byte
    address [p] advanced by [(i) << 4] bytes, the shift being done in
    [int].  The macro parenthesises [i] but not [p]. *)
Definition py_offset (p : Z) (i : Z) : Z := p + to_int (Z.shiftl i 4).

(** The macro applied to an argument written as the sum [p + k], with [p]
    an identifier: the cast to a byte pointer in the expansion binds to
    [p] alone, so [k] is added in bytes, and then the shifted index. *)
Definition py_offset_sum (p k i : Z) : Z := p + k + to_int (Z.shiftl i 4).

(** The macro [py_arg(i)], which expands to [py_offset(argv, i)]. *)
Definition py_arg (argv : Z) (i : Z) : Z := py_offset argv i.

(** * Properties *)

(** ** Loads and stores *)

Lemma bind_Some_inv {A B} (m : option A) (k : A -> option B) (b : B) :
  m ≫= k = Some b -> exists a, m = Some a /\ k a = Some b.
Proof. destruct m as [a|]; simpl; [eauto | discriminate]. Qed.

Ltac inv_bind H :=
  let a := fresh "x" in
  let Ha := fresh "E" in
  apply bind_Some_inv in H; destruct H as (a & Ha & H).

Lemma type_info_Some vm t ti :
  type_info vm t = Some ti -> 0 <= t /\ types vm !! Z.to_nat t = Some ti.
Proof. unfold type_info. case_decide; [auto | discriminate]. Qed.

Lemma load_poke_eq vm r c :
  is_Some (load vm r) -> load (poke vm r c) r = Some c.
Proof.
  intros [x Hx]. destruct r; simpl in *.
  - apply list_lookup_insert_eq. by eapply lookup_lt_Some.
  - apply list_lookup_insert_eq. by eapply lookup_lt_Some.
  - apply list_lookup_insert_eq. by eapply lookup_lt_Some.
  - inv_bind Hx. rewrite list_lookup_alter_eq, E. simpl.
    apply list_lookup_insert_eq. by eapply lookup_lt_Some.
  - inv_bind Hx. apply type_info_Some in E as [Ht E].
    unfold type_info. simpl. rewrite decide_True by done.
    by rewrite list_lookup_alter_eq, E.
  - inv_bind Hx. apply type_info_Some in E as [Ht E].
    unfold type_info. simpl. rewrite decide_True by done.
    rewrite list_lookup_alter_eq, E. simpl.
    case_decide; [| discriminate].
    apply list_lookup_insert_eq. by eapply lookup_lt_Some.
  - done.
Qed.

Lemma load_poke_ne vm r r' c :
  is_Some (load vm r) -> r <> r' -> load (poke vm r c) r' = load vm r'.
Proof.
  intros [x Hx] Hne.
  destruct r, r'; simpl in *; try done.
  - apply list_lookup_insert_ne. congruence.
  - apply list_lookup_insert_ne. congruence.
  - apply list_lookup_insert_ne. congruence.
  - destruct (decide (p = p0)) as [->|Hp].
    + rewrite list_lookup_alter_eq. destruct (heap vm !! p0); simpl; [| done].
      apply list_lookup_insert_ne. congruence.
    + by rewrite list_lookup_alter_ne.
  - inv_bind Hx. apply type_info_Some in E as [Ht E].
    unfold type_info. simpl. destruct (decide (0 <= t0)) as [Ht0|]; simpl; [| done].
    rewrite list_lookup_alter_ne; [done |]. intros Heq.
    apply Hne. f_equal. lia.
  - unfold type_info. simpl. destruct (decide (0 <= t0)) as [Ht0|]; simpl; [| done].
    destruct (decide (Z.to_nat t = Z.to_nat t0)) as [Heq|Hd].
    + rewrite Heq, list_lookup_alter_eq. by destruct (types vm !! Z.to_nat t0).
    + by rewrite list_lookup_alter_ne.
  - unfold type_info. simpl. destruct (decide (0 <= t0)) as [Ht0|]; simpl; [| done].
    destruct (decide (Z.to_nat t = Z.to_nat t0)) as [Heq|Hd].
    + rewrite Heq, list_lookup_alter_eq. by destruct (types vm !! Z.to_nat t0).
    + by rewrite list_lookup_alter_ne.
  - inv_bind Hx. apply type_info_Some in E as [Ht E].
    unfold type_info. simpl. destruct (decide (0 <= t0)) as [Ht0|]; simpl; [| done].
    destruct (decide (Z.to_nat t = Z.to_nat t0)) as [Heq|Hd].
    + assert (t = t0) as -> by lia.
      rewrite list_lookup_alter_eq, E in *. simpl.
      case_decide as Hn; [| discriminate].
      case_decide as Hn0; [| done].
      apply list_lookup_insert_ne. intros Heq'. apply Hne. f_equal. lia.
    + by rewrite list_lookup_alter_ne.
Qed.

Lemma poke_poke vm r c1 c2 : poke (poke vm r c1) r c2 = poke vm r c2.
Proof.
  destruct r; simpl; unfold set_reg, set_stack, set_locals, set_heap, set_types,
    set_last_retval; simpl; f_equal.
  - apply list_insert_insert_eq.
  - apply list_insert_insert_eq.
  - apply list_insert_insert_eq.
  - rewrite list_alter_alter_eq. apply list_alter_ext; [| done].
    intros o _. unfold set_slot_cells; simpl. f_equal. apply list_insert_insert_eq.
  - rewrite list_alter_alter_eq. by apply list_alter_ext.
  - rewrite list_alter_alter_eq. apply list_alter_ext; [| done].
    intros ti _. unfold set_magic; simpl. f_equal. apply list_insert_insert_eq.
Qed.

Lemma store_Some vm r c :
  is_Some (load vm r) -> store vm r c = Some (poke vm r c).
Proof. intros [x Hx]. unfold store. by rewrite Hx. Qed.

Lemma store_inv vm r c vm' :
  store vm r c = Some vm' -> is_Some (load vm r) /\ vm' = poke vm r c.
Proof.
  unfold store. destruct (load vm r) eqn:E; [| discriminate].
  intros [= <-]. eauto.
Qed.

Lemma load_store_eq vm r c vm' : store vm r c = Some vm' -> load vm' r = Some c.
Proof. intros [H ->]%store_inv. by apply load_poke_eq. Qed.

Lemma load_store_ne vm r r' c vm' :
  store vm r c = Some vm' -> r <> r' -> load vm' r' = load vm r'.
Proof. intros [H ->]%store_inv Hne. by apply load_poke_ne. Qed.

Lemma store_store vm r c1 c2 vm1 :
  store vm r c1 = Some vm1 -> store vm1 r c2 = store vm r c2.
Proof.
  intros H. pose proof (load_store_eq _ _ _ _ H) as Hl.
  apply store_inv in H as [Hs ->].
  rewrite !store_Some by (done || by rewrite Hl). by rewrite poke_poke.
Qed.

(** The three field writes of a constructor amount to one store of the
    whole cell. *)
Lemma write_type_ptr_payload vm out t b u :
  (vm1 ← set_type vm out t; vm2 ← set_is_ptr vm1 out b; set_payload vm2 out u)
  = store vm out (mk_TValue t b u).
Proof.
  unfold set_type, set_is_ptr, set_payload.
  destruct (load vm out) as [c|] eqn:E; simpl.
  - destruct (store vm out (mk_TValue t (is_ptr c) (payload c))) as [vm1|] eqn:E1.
    + simpl. rewrite (load_store_eq _ _ _ _ E1). simpl.
      rewrite (store_store _ _ _ _ _ E1).
      destruct (store vm out (mk_TValue t b (payload c))) as [vm2|] eqn:E2.
      * simpl. rewrite (load_store_eq _ _ _ _ E2). simpl.
        by rewrite (store_store _ _ _ _ _ E2).
      * unfold store in E2. by rewrite E in E2.
    + unfold store in E1. by rewrite E in E1.
  - unfold store. by rewrite E.
Qed.

Lemma write_type_ptr vm out t b :
  (vm1 ← set_type vm out t; set_is_ptr vm1 out b)
  = c ← load vm out; store vm out (mk_TValue t b (payload c)).
Proof.
  unfold set_type, set_is_ptr.
  destruct (load vm out) as [c|] eqn:E; simpl; [| done].
  destruct (store vm out (mk_TValue t (is_ptr c) (payload c))) as [vm1|] eqn:E1.
  - simpl. rewrite (load_store_eq _ _ _ _ E1). simpl.
    by rewrite (store_store _ _ _ _ _ E1).
  - unfold store in E1. by rewrite E in E1.
Qed.

(** ** What an operation leaves alone in the heap *)

Lemma obj_kept_refl vm p : obj_kept vm vm p.
Proof. intros o H. eauto. Qed.

Lemma obj_kept_trans vm1 vm2 vm3 p :
  obj_kept vm1 vm2 p -> obj_kept vm2 vm3 p -> obj_kept vm1 vm3 p.
Proof.
  intros H1 H2 o Ho. destruct (H1 o Ho) as (o' & Ho' & ? & ? & ?).
  destruct (H2 o' Ho') as (o'' & Ho'' & ? & ? & ?).
  exists o''. repeat split; congruence.
Qed.

Lemma obj_kept_heap_eq vm vm' p : heap vm' = heap vm -> obj_kept vm vm' p.
Proof. intros E o H. rewrite E. eauto. Qed.

Lemma heap_frame_refl vm : heap_frame vm vm.
Proof. intros p. apply obj_kept_refl. Qed.

Lemma heap_frame_trans vm1 vm2 vm3 :
  heap_frame vm1 vm2 -> heap_frame vm2 vm3 -> heap_frame vm1 vm3.
Proof. intros H1 H2 p. eapply obj_kept_trans; eauto. Qed.

Lemma heap_frame_poke vm r c : heap_frame vm (poke vm r c).
Proof.
  intros q. destruct r; try (by apply obj_kept_heap_eq).
  intros o Ho. simpl. destruct (decide (p = q)) as [->|Hne].
  - rewrite list_lookup_alter_eq, Ho. simpl. eauto.
  - rewrite list_lookup_alter_ne by done. eauto.
Qed.

Lemma heap_frame_store vm r c vm' : store vm r c = Some vm' -> heap_frame vm vm'.
Proof. intros [_ ->]%store_inv. apply heap_frame_poke. Qed.

Lemma heap_frame_gcnew vm t slots udsize :
  heap_frame vm (pk_ManagedHeap__gcnew vm t slots udsize).1.
Proof. intros p o Ho. simpl. exists o. split; [by apply lookup_app_l_Some | done]. Qed.

Lemma obj_kept_ud_write vm p off bs vm' q :
  ud_write vm p off bs = Some vm' -> p <> q -> obj_kept vm vm' q.
Proof.
  unfold ud_write. intros H Hne. inv_bind H. inv_bind H. injection H as <-.
  intros o Ho. simpl. rewrite list_lookup_insert_ne by done. eauto.
Qed.

Lemma heap_length_poke vm r c : length (heap (poke vm r c)) = length (heap vm).
Proof. destruct r; simpl; try done. by rewrite length_alter. Qed.

Lemma heap_length_store vm r c vm' :
  store vm r c = Some vm' -> length (heap vm') = length (heap vm).
Proof. intros [_ ->]%store_inv. apply heap_length_poke. Qed.

Lemma heap_length_ud_write vm p off bs vm' :
  ud_write vm p off bs = Some vm' -> length (heap vm') = length (heap vm).
Proof.
  unfold ud_write. intros H. inv_bind H. inv_bind H. injection H as <-.
  simpl. by rewrite length_insert.
Qed.

Lemma load_ud_write vm p off bs vm' r :
  ud_write vm p off bs = Some vm' -> load vm' r = load vm r.
Proof.
  unfold ud_write. intros H. inv_bind H. inv_bind H. injection H as <-.
  destruct r; simpl; try done.
  destruct (decide (p = p0)) as [->|Hne].
  - rewrite list_lookup_insert_eq by (by eapply lookup_lt_Some). by rewrite E.
  - by rewrite list_lookup_insert_ne.
Qed.

Lemma load_gcnew vm t slots udsize r c :
  load vm r = Some c -> load (pk_ManagedHeap__gcnew vm t slots udsize).1 r = Some c.
Proof.
  destruct r; simpl; try done.
  intros H. inv_bind H. by rewrite (lookup_app_l_Some _ _ _ _ E).
Qed.

Lemma heap_gcnew vm t slots udsize :
  let r := pk_ManagedHeap__gcnew vm t slots udsize in
  r.2 = length (heap vm) /\
  exists o, heap r.1 !! r.2 = Some o /\ ob_type o = t /\ ob_slots o = slots /\
            slot_cells o = replicate (Z.to_nat slots) nil_cell /\
            userdata o = replicate (Z.to_nat udsize) None.
Proof.
  simpl. split; [done |]. eexists. split; [apply list_lookup_middle; done |].
  done.
Qed.

(** ** The constructors in closed form *)

Lemma py_newint_store vm out v :
  py_newint vm out v = store vm out (mk_TValue tp_int false (_i64 v)).
Proof. apply write_type_ptr_payload. Qed.

Lemma py_newfloat_store vm out v :
  py_newfloat vm out v = store vm out (mk_TValue tp_float false (_f64 v)).
Proof. apply write_type_ptr_payload. Qed.

Lemma py_newbool_store vm out v :
  py_newbool vm out v = store vm out (mk_TValue tp_bool false (_bool v)).
Proof. apply write_type_ptr_payload. Qed.

Lemma py_newnativefunc_store vm out f :
  py_newnativefunc vm out f = store vm out (mk_TValue tp_nativefunc false (_cfunc f)).
Proof. apply write_type_ptr_payload. Qed.

Lemma py_newnone_store vm out :
  py_newnone vm out
  = c ← load vm out; store vm out (mk_TValue tp_none_type false (payload c)).
Proof. apply write_type_ptr. Qed.

Lemma py_newnotimplemented_store vm out :
  py_newnotimplemented vm out
  = c ← load vm out; store vm out (mk_TValue tp_not_implemented_type false (payload c)).
Proof. apply write_type_ptr. Qed.

Lemma py_newellipsis_store vm out :
  py_newellipsis vm out
  = c ← load vm out; store vm out (mk_TValue tp_ellipsis false (payload c)).
Proof. apply write_type_ptr. Qed.

Lemma py_newobject_store vm out t slots udsize :
  py_newobject vm out t slots udsize
  = store (pk_ManagedHeap__gcnew vm t slots udsize).1 out
          (mk_TValue t true (_obj (length (heap vm)))).
Proof. unfold py_newobject. simpl. apply write_type_ptr_payload. Qed.

Lemma store_writes_immediate vm out t u :
  is_Some (load vm out) ->
  writes_immediate (store vm out (mk_TValue t false u)) out t.
Proof.
  intros H. exists (poke vm out (mk_TValue t false u)), (mk_TValue t false u).
  split; [by apply store_Some |]. split; [by apply load_poke_eq | done].
Qed.

Lemma store_writes_pointer vm out t p o :
  is_Some (load vm out) -> heap vm !! p = Some o -> ob_type o = t ->
  writes_pointer (store vm out (mk_TValue t true (_obj p))) out t.
Proof.
  intros H Ho Ht.
  destruct (heap_frame_poke vm out (mk_TValue t true (_obj p)) p o Ho)
    as (o' & Ho' & Ht' & _).
  exists (poke vm out (mk_TValue t true (_obj p))), (mk_TValue t true (_obj p)), p, o'.
  split; [by apply store_Some |]. split; [by apply load_poke_eq |].
  simpl. repeat split; [done | congruence].
Qed.

(** ** Writes into user data *)

Lemma length_int_bytes x : length (int_bytes x) = 4%nat.
Proof. done. Qed.

Lemma read_bytes_Some data n :
  0 <= n <= Z.of_nat (length data) ->
  read_bytes data n = Some (take (Z.to_nat n) data) /\
  length (take (Z.to_nat n) data) = Z.to_nat n.
Proof.
  intros H. unfold read_bytes. rewrite decide_True by lia.
  split; [done |]. rewrite length_take. lia.
Qed.

Lemma ud_write_Some vm p o off bs :
  heap vm !! p = Some o ->
  0 <= off -> off + Z.of_nat (length bs) <= Z.of_nat (length (userdata o)) ->
  ud_write vm p off bs =
    Some (set_heap vm (<[p := set_userdata o
        (take (Z.to_nat off) (userdata o) ++ (Some <$> bs)
           ++ drop (Z.to_nat off + length bs)%nat (userdata o))]> (heap vm))).
Proof.
  intros Ho H0 H1. unfold ud_write, write_bytes. rewrite Ho. simpl.
  by rewrite decide_True by lia.
Qed.

Lemma heap_set_insert vm p o o' :
  heap vm !! p = Some o ->
  heap (set_heap vm (<[p := o']> (heap vm))) !! p = Some o'.
Proof. intros H. simpl. apply list_lookup_insert_eq. by eapply lookup_lt_Some. Qed.

(** Filling a fresh region of [4 + n] bytes with a length prefix and [n]
    bytes leaves it fully written. *)
Lemma fill_prefixed vm p o x src :
  heap vm !! p = Some o ->
  userdata o = replicate (4 + length src)%nat None ->
  exists vm1 vm2 o2,
    ud_write vm p 0 (int_bytes x) = Some vm1 /\
    ud_write vm1 p sizeof_int src = Some vm2 /\
    heap vm2 !! p = Some o2 /\
    userdata o2 = Some <$> (int_bytes x ++ src) /\
    ob_type o2 = ob_type o /\ ob_slots o2 = ob_slots o /\
    slot_cells o2 = slot_cells o /\ ob_dict o2 = ob_dict o.
Proof.
  intros Ho Hud.
  pose proof (ud_write_Some vm p o 0 (int_bytes x) Ho) as W1.
  rewrite Hud in W1. rewrite length_replicate, length_int_bytes in W1.
  specialize (W1 ltac:(lia) ltac:(lia)).
  simpl in W1. rewrite drop_0 in W1.
  eexists _, _, _. split; [exact W1 |].
  set (o1 := set_userdata o _) in *.
  set (vm1 := set_heap vm _) in *.
  assert (Ho1 : heap vm1 !! p = Some o1) by (by eapply heap_set_insert).
  pose proof (ud_write_Some vm1 p o1 sizeof_int src Ho1) as W2.
  assert (Hlen : length (userdata o1) = (4 + length src)%nat).
  { subst o1. simpl. rewrite length_replicate. lia. }
  rewrite Hlen in W2. unfold sizeof_int in *.
  specialize (W2 ltac:(lia) ltac:(lia)).
  split; [exact W2 |].
  split; [by eapply heap_set_insert |].
  simpl. repeat split; try done.
  do 4 f_equal.
  rewrite drop_replicate, Nat.sub_diag. simpl. by rewrite app_nil_r.
Qed.

Lemma ud_write_ok vm p o off bs :
  heap vm !! p = Some o ->
  0 <= off -> off + Z.of_nat (length bs) <= Z.of_nat (length (userdata o)) ->
  exists vm' o', ud_write vm p off bs = Some vm' /\ heap vm' !! p = Some o' /\
    length (userdata o') = length (userdata o) /\ ob_type o' = ob_type o.
Proof.
  intros Ho H0 H1. eexists _, _. split; [by apply ud_write_Some |].
  split; [by eapply heap_set_insert |]. split; [| done]. simpl.
  rewrite !length_app, length_fmap, length_take, length_drop. lia.
Qed.

Lemma to_int_small x : - 2 ^ 31 <= x <= INT_MAX -> to_int x = x.
Proof.
  unfold to_int, INT_MAX. intros H. rewrite Z.mod_small; lia.
Qed.

(** What [py_newbytes] does on a valid output reference, an array of at
    least [size] bytes, and a user-data size an [int] can hold. *)
Lemma py_newbytes_spec vm out data size :
  is_Some (load vm out) -> 0 <= size <= Z.of_nat (length data) ->
  sizeof_int + size <= INT_MAX ->
  exists vm' o,
    py_newbytes vm out data size = Some vm' /\
    load vm' out = Some (mk_TValue tp_bytes true (_obj (length (heap vm)))) /\
    heap vm' !! length (heap vm) = Some o /\
    ob_type o = tp_bytes /\ ob_slots o = 0 /\
    userdata o = Some <$> (int_bytes size ++ take (Z.to_nat size) data).
Proof.
  intros [c Hc] Hsz Hmax. unfold py_newbytes.
  rewrite to_int_small by (unfold sizeof_int, INT_MAX in *; lia).
  pose proof (heap_gcnew vm tp_bytes 0 (sizeof_int + size)) as G.
  pose proof (load_gcnew vm tp_bytes 0 (sizeof_int + size) out c Hc) as L.
  destruct (pk_ManagedHeap__gcnew vm tp_bytes 0 (sizeof_int + size)) as [vm0 p].
  simpl in G, L. destruct G as (-> & o0 & Ho0 & Ht0 & Hs0 & _ & Hud0).
  destruct (read_bytes_Some data size Hsz) as [R Rlen].
  set (src := take (Z.to_nat size) data) in *.
  assert (Hud : userdata o0 = replicate (4 + length src)%nat None).
  { rewrite Hud0, Rlen. f_equal. unfold sizeof_int. lia. }
  destruct (fill_prefixed vm0 _ o0 size src Ho0 Hud)
    as (vm1 & vm2 & o2 & W1 & W2 & Ho2 & Hud2 & Ht2 & Hs2 & _).
  rewrite W1. simpl. rewrite R. simpl. rewrite W2. simpl.
  rewrite write_type_ptr_payload.
  assert (L2 : load vm2 out = Some c).
  { by rewrite (load_ud_write _ _ _ _ _ out W2), (load_ud_write _ _ _ _ _ out W1). }
  set (cell := mk_TValue tp_bytes true (_obj (length (heap vm)))).
  destruct (heap_frame_poke vm2 out cell _ o2 Ho2) as (o' & Ho' & Ht' & Hs' & Hud').
  exists (poke vm2 out cell), o'.
  split; [by apply store_Some |].
  split; [by apply load_poke_eq |].
  split; [done |]. split; [congruence |]. split; [congruence |].
  by rewrite Hud', Hud2.
Qed.

(** What [py_newstrn] does on a valid output reference, an array of at
    least [size] bytes, and a total size an [int] can hold. *)
Lemma py_newstrn_spec vm out data size :
  is_Some (load vm out) -> 0 <= size <= Z.of_nat (length data) ->
  sizeof_c11_string + size + 1 <= INT_MAX ->
  exists vm' o,
    py_newstrn vm out data size = Some vm' /\
    load vm' out = Some (mk_TValue tp_str true (_obj (length (heap vm)))) /\
    heap vm' !! length (heap vm) = Some o /\ ob_type o = tp_str.
Proof.
  intros [c Hc] Hsz Hmax. unfold py_newstrn.
  rewrite to_int_small by (unfold sizeof_c11_string, sizeof_int, INT_MAX in *; lia).
  pose proof (heap_gcnew vm tp_str 0 (sizeof_c11_string + size + 1)) as G.
  pose proof (load_gcnew vm tp_str 0 (sizeof_c11_string + size + 1) out c Hc) as L.
  destruct (pk_ManagedHeap__gcnew vm tp_str 0 (sizeof_c11_string + size + 1))
    as [vm0 p].
  simpl in G, L. destruct G as (-> & o0 & Ho0 & Ht0 & _ & _ & Hud0).
  destruct (read_bytes_Some data size Hsz) as [R Rlen].
  assert (Hlen0 : Z.of_nat (length (userdata o0)) = size + 5).
  { rewrite Hud0, length_replicate. unfold sizeof_c11_string, sizeof_int. lia. }
  unfold c11_string__ctor2. rewrite R. simpl.
  destruct (ud_write_ok vm0 _ o0 0 (int_bytes size) Ho0)
    as (vm1 & o1 & W1 & Ho1 & Hl1 & Ht1); [lia | rewrite length_int_bytes; lia |].
  rewrite W1. simpl.
  destruct (ud_write_ok vm1 _ o1 sizeof_c11_string (take (Z.to_nat size) data) Ho1)
    as (vm2 & o2 & W2 & Ho2 & Hl2 & Ht2);
    [done | unfold sizeof_c11_string, sizeof_int; lia |].
  rewrite W2. simpl.
  destruct (ud_write_ok vm2 _ o2 (sizeof_c11_string + size) [0] Ho2)
    as (vm3 & o3 & W3 & Ho3 & Hl3 & Ht3);
    [unfold sizeof_c11_string, sizeof_int; lia
    | unfold sizeof_c11_string, sizeof_int; simpl length; lia |].
  rewrite W3. simpl. rewrite write_type_ptr_payload.
  assert (L3 : load vm3 out = Some c).
  { by rewrite (load_ud_write _ _ _ _ _ out W3), (load_ud_write _ _ _ _ _ out W2),
       (load_ud_write _ _ _ _ _ out W1). }
  set (cell := mk_TValue tp_str true (_obj (length (heap vm)))).
  destruct (heap_frame_poke vm3 out cell _ o3 Ho3) as (o' & Ho' & Ht' & _).
  exists (poke vm3 out cell), o'.
  split; [by apply store_Some |].
  split; [by apply load_poke_eq |].
  split; [done | congruence].
Qed.

(** ** C1: the constructors and the cell invariant *)

(** C1.  Every value constructor establishes the cell invariant.  On a valid
    output reference, [py_newint], [py_newfloat], [py_newbool], [py_newnone],
    [py_newnotimplemented], [py_newellipsis] and [py_newnativefunc] succeed
    and leave in [*out] a cell of their type with [is_ptr = false];
    [py_newstrn], [py_newbytes] and [py_newobject] succeed and leave in
    [*out] a cell with [is_ptr = true] that points at a heap object whose
    header records the cell's type tag.  The two buffer constructors are
    given an array of at least [size >= 0] bytes and a size for which the
    user-data size they compute ([sizeof(c11_string) + size + 1],
    [sizeof(int) + size]) is one an [int] can hold. *)
Theorem constructors_establish_cell_invariant (vm : VM) (out : py_Ref) :
  is_Some (load vm out) ->
  (forall val, writes_immediate (py_newint vm out val) out tp_int) /\
  (forall val, writes_immediate (py_newfloat vm out val) out tp_float) /\
  (forall val, writes_immediate (py_newbool vm out val) out tp_bool) /\
  writes_immediate (py_newnone vm out) out tp_none_type /\
  writes_immediate (py_newnotimplemented vm out) out tp_not_implemented_type /\
  writes_immediate (py_newellipsis vm out) out tp_ellipsis /\
  (forall f, writes_immediate (py_newnativefunc vm out f) out tp_nativefunc) /\
  (forall data size,
     0 <= size <= Z.of_nat (length data) ->
     sizeof_c11_string + size + 1 <= INT_MAX ->
     writes_pointer (py_newstrn vm out data size) out tp_str) /\
  (forall data size,
     0 <= size <= Z.of_nat (length data) ->
     sizeof_int + size <= INT_MAX ->
     writes_pointer (py_newbytes vm out data size) out tp_bytes) /\
  (forall t slots udsize,
     writes_pointer (py_newobject vm out t slots udsize) out t).
Proof.
  intros Hout. pose proof Hout as [c Hc].
  split; [intros; rewrite py_newint_store; by apply store_writes_immediate |].
  split; [intros; rewrite py_newfloat_store; by apply store_writes_immediate |].
  split; [intros; rewrite py_newbool_store; by apply store_writes_immediate |].
  split; [rewrite py_newnone_store, Hc; by apply store_writes_immediate |].
  split; [rewrite py_newnotimplemented_store, Hc; by apply store_writes_immediate |].
  split; [rewrite py_newellipsis_store, Hc; by apply store_writes_immediate |].
  split; [intros; rewrite py_newnativefunc_store; by apply store_writes_immediate |].
  split; [| split].
  - intros data size Hsz Hmax.
    destruct (py_newstrn_spec vm out data size Hout Hsz Hmax)
      as (vm' & o & E & L & Ho & Ht).
    exists vm', (mk_TValue tp_str true (_obj (length (heap vm)))), (length (heap vm)), o.
    by rewrite E.
  - intros data size Hsz Hmax.
    destruct (py_newbytes_spec vm out data size Hout Hsz Hmax)
      as (vm' & o & E & L & Ho & Ht & _).
    exists vm', (mk_TValue tp_bytes true (_obj (length (heap vm)))), (length (heap vm)), o.
    by rewrite E.
  - intros t slots udsize. rewrite py_newobject_store.
    destruct (heap_gcnew vm t slots udsize) as (Hp & o & Ho & Ht & _).
    simpl in Hp, Ho.
    eapply store_writes_pointer; [| exact Ho | exact Ht].
    exists c. by apply load_gcnew.
Qed.

(** ** C10: [py_newnull] *)

(** C10.  For every cell [*out], [py_newnull(out)] writes only the type tag,
    setting it to [0] (nil): the cell keeps its [is_ptr] flag and its
    payload, and no other cell changes.  So a nil cell made from a cell that
    carried a pointer still has [is_ptr = true] and the same pointer. *)
Theorem py_newnull_writes_only_type (vm : VM) (out : py_Ref) (c : py_TValue) :
  load vm out = Some c ->
  exists vm',
    py_newnull vm out = Some vm' /\
    load vm' out = Some (mk_TValue 0 (is_ptr c) (payload c)) /\
    (forall r, r <> out -> load vm' r = load vm r) /\
    heap_frame vm vm' /\
    (forall p, is_ptr c = true -> payload c = _obj p ->
       exists c', load vm' out = Some c' /\ py_isnil c' = true /\
                  is_ptr c' = true /\ payload c' = _obj p).
Proof.
  intros Hc. unfold py_newnull, set_type. rewrite Hc. simpl.
  set (cell := mk_TValue 0 (is_ptr c) (payload c)).
  assert (Hs : store vm out cell = Some (poke vm out cell))
    by (apply store_Some; eauto).
  exists (poke vm out cell). split; [done |].
  assert (Hl : load (poke vm out cell) out = Some cell)
    by (apply load_poke_eq; eauto).
  split; [done |]. split; [| split].
  - intros r Hr. apply load_poke_ne; eauto.
  - apply heap_frame_poke.
  - intros p Hp Hpl. exists cell. split; [done |].
    unfold cell, py_isnil. simpl. by rewrite Hp, Hpl.
Qed.

(** ** C8: [py_newfunction2] and [py_newfunction] *)

(** C8.  [py_newfunction2(out, f, sig, bt, docstring, upvalue)] returns
    without modifying [*out] or any other part of the state, whatever its
    arguments; so does [py_newfunction(out, f, sig)], which therefore
    leaves [*out] as it was and writes no cell of type [tp_function]: if
    [*out] has that type after the call, it is the cell that was there
    before. *)
Theorem py_newfunction_changes_nothing (vm : VM) (out : py_Ref)
    (f : py_CFunction) (sig : string) (bt : BindType)
    (docstring : option string) (upvalue : option py_Ref) :
  py_newfunction2 vm out f sig bt docstring upvalue = Some vm /\
  py_newfunction vm out f sig = Some vm /\
  (forall vm', py_newfunction vm out f sig = Some vm' ->
     load vm' out = load vm out /\
     forall c, load vm' out = Some c -> type c = tp_function ->
               load vm out = Some c).
Proof.
  split; [done |]. split; [done |].
  intros vm' [= <-]. split; [done | auto].
Qed.

(** ** C9: the binding functions *)

Lemma newnativefunc_local vm tmp0 f :
  py_newnativefunc (push_local vm tmp0) (ref_local (length (locals vm))) f
  = Some (push_local vm (nativefunc_cell f)).
Proof.
  rewrite py_newnativefunc_store. unfold store. simpl.
  rewrite list_lookup_middle by done.
  unfold push_local, set_locals. simpl. do 2 f_equal.
  rewrite insert_app_r_alt by done. by rewrite Nat.sub_diag.
Qed.

Lemma py_name_push_local vm c s :
  py_name (push_local vm c) s
  = (fun r => (r.1, push_local r.2 c)) <$> py_name vm s.
Proof.
  unfold py_name. simpl. destruct (index_of s (names vm)); [done |].
  by case_decide.
Qed.

Lemma py_name_only_names vm s n vm1 :
  py_name vm s = Some (n, vm1) -> vm1 = set_names vm (names vm1).
Proof.
  unfold py_name. destruct (index_of s (names vm)).
  - intros [= <- <-]. by destruct vm.
  - case_decide; [| discriminate]. by intros [= <- <-].
Qed.

Lemma pop_push_local vm c : pop_local (push_local vm c) = vm.
Proof.
  unfold pop_local, push_local, set_locals. simpl.
  rewrite length_app. simpl. rewrite Nat.add_sub, take_app_length.
  by destruct vm.
Qed.

(** Binding on a type object, in closed form: whatever the local [tmp]
    held, the attribute store of the type object gets the native-function
    cell under the interned name. *)
Lemma py_bindnativefunc_tpobject vm t name f tmp0 :
  py_bindnativefunc vm (py_tpobject t) name f tmp0 = bind_effect vm t name f.
Proof.
  unfold py_bindnativefunc, bind_effect.
  rewrite newnativefunc_local. simpl. rewrite py_name_push_local.
  destruct (py_name vm name) as [[n vm1]|] eqn:En; simpl; [| done].
  apply py_name_only_names in En. rewrite En.
  unfold py_setdict, py_tpobject. simpl.
  destruct (type_info vm t) as [ti|] eqn:Eti.
  - assert (E1 : type_info (push_local (set_names vm (names vm1)) (nativefunc_cell f)) t
                 = Some ti) by done.
    assert (E2 : type_info (set_names vm (names vm1)) t = Some ti) by done.
    rewrite E1, E2. simpl. rewrite list_lookup_middle by done. simpl.
    destruct (is_ptr (tp_self ti)); [| done].
    destruct (payload (tp_self ti)); try done.
    destruct (heap vm !! p) as [o|]; simpl; [| done].
    destruct (ob_dict o) as [d|]; simpl; [| done].
    f_equal. unfold pop_local, push_local, set_locals, set_heap, set_names. simpl.
    rewrite length_app. simpl. by rewrite Nat.add_sub, take_app_length.
  - assert (E1 : type_info (push_local (set_names vm (names vm1)) (nativefunc_cell f)) t
                 = None) by done.
    assert (E2 : type_info (set_names vm (names vm1)) t = None) by done.
    by rewrite E1, E2.
Qed.

(** C9.  [py_bindmethod2(type, name, f, bt)] ignores [bt]: whatever [bt] is
    (and whatever the local [tmp] held on entry), it interns [name] and
    stores a plain native-function cell for [f] under that name in the
    attribute store of the type object.  Hence [py_bindmethod(type, name,
    f)], [py_bindmethod2(type, name, f, bt)] and
    [py_bindnativefunc(py_tpobject(type), name, f)] have the same effect on
    the state (and are undefined on the same inputs). *)
Theorem bind_functions_agree (vm : VM) (t : py_Type) (name : string)
    (f : py_CFunction) (bt : BindType) (tmp0 tmp1 tmp2 : py_TValue) :
  py_bindmethod2 vm t name f bt tmp0 = bind_effect vm t name f /\
  py_bindmethod vm t name f tmp1 = py_bindmethod2 vm t name f bt tmp0 /\
  py_bindnativefunc vm (py_tpobject t) name f tmp2
    = py_bindmethod2 vm t name f bt tmp0.
Proof.
  assert (H : forall bt' tmp, py_bindmethod2 vm t name f bt' tmp = bind_effect vm t name f).
  { intros bt' tmp. rewrite <- (py_bindnativefunc_tpobject vm t name f tmp). done. }
  split; [apply H |]. split.
  - unfold py_bindmethod. by rewrite !H.
  - by rewrite H, py_bindnativefunc_tpobject.
Qed.

(** ** C5: [py_newslice] *)

Lemma heap_poke_other vm r c p :
  (forall i, r <> ref_slot p i) -> heap (poke vm r c) !! p = heap vm !! p.
Proof.
  intros H. destruct r; simpl; try done.
  apply list_lookup_alter_ne. intros ->. by apply (H i).
Qed.

Lemma valid_not_fresh vm r i :
  is_Some (load vm r) -> r <> ref_slot (length (heap vm)) i.
Proof.
  intros [c Hc] ->. simpl in Hc.
  rewrite (lookup_ge_None_2 (heap vm) (length (heap vm))) in Hc by lia.
  discriminate.
Qed.

Lemma heap_poke_slot vm p i c o :
  heap vm !! p = Some o ->
  heap (poke vm (ref_slot p i) c) !! p
  = Some (set_slot_cells o (<[i := c]> (slot_cells o))).
Proof. intros H. simpl. by rewrite list_lookup_alter_eq, H. Qed.

(** One [py_setslot] through a pointer cell. *)
Lemma py_setslot_step vm self i val t p v o :
  load vm self = Some (mk_TValue t true (_obj p)) ->
  load vm val = Some v ->
  heap vm !! p = Some o ->
  0 <= i -> (Z.to_nat i < length (slot_cells o))%nat ->
  exists vm',
    py_setslot vm self i val = Some vm' /\
    heap vm' !! p = Some (set_slot_cells o (<[Z.to_nat i := v]> (slot_cells o))) /\
    (forall r, (forall j, r <> ref_slot p j) -> load vm' r = load vm r).
Proof.
  intros Hs Hv Ho Hi Hlt.
  assert (Hvalid : is_Some (load vm (ref_slot p (Z.to_nat i)))).
  { simpl. rewrite Ho. simpl. by apply lookup_lt_is_Some. }
  exists (poke vm (ref_slot p (Z.to_nat i)) v). split; [| split].
  - unfold py_setslot. rewrite Hs, Hv. simpl.
    rewrite decide_True by done. by apply store_Some.
  - by apply heap_poke_slot.
  - intros r Hr. apply load_poke_ne; [done |]. intros <-. by eapply Hr.
Qed.

(** C5 (amended).  For every triple of cell references [start], [stop],
    [step], [py_newslice] creates a heap object of type [tp_slice] with
    exactly 3 slots, and after construction slots 0, 1 and 2 equal the
    cells that [start], [stop] and [step] held when the call was made, for
    each of the three that is not the same reference as [out]:
    [py_newslice] writes [*out] before it reads its arguments.  In every
    case the slots equal what the three references hold after the call. *)
Theorem py_newslice_slots (vm : VM) (out start stop step : py_Ref) :
  is_Some (load vm out) -> is_Some (load vm start) ->
  is_Some (load vm stop) -> is_Some (load vm step) ->
  exists vm' o a b c,
    py_newslice vm out start stop step = Some vm' /\
    load vm' out = Some (mk_TValue tp_slice true (_obj (length (heap vm)))) /\
    heap vm' !! length (heap vm) = Some o /\
    ob_type o = tp_slice /\ ob_slots o = 3 /\
    slot_cells o = [a; b; c] /\
    load vm' start = Some a /\ load vm' stop = Some b /\ load vm' step = Some c /\
    (start <> out -> load vm start = Some a) /\
    (stop <> out -> load vm stop = Some b) /\
    (step <> out -> load vm step = Some c).
Proof.
  intros Hout Hstart Hstop Hstep.
  set (p := length (heap vm)).
  set (cell := mk_TValue tp_slice true (_obj p)).
  destruct (heap_gcnew vm tp_slice 3 0) as (_ & o0 & Ho0 & Ht0 & Hn0 & Hc0 & _).
  simpl fst in Ho0. simpl snd in Ho0. fold p in Ho0.
  set (vm0 := (pk_ManagedHeap__gcnew vm tp_slice 3 0).1) in *.
  assert (V0 : forall r, is_Some (load vm r) -> load vm0 r = load vm r).
  { intros r [x Hx]. rewrite Hx. by apply load_gcnew. }
  assert (F : forall r, is_Some (load vm r) -> forall j, r <> ref_slot p j).
  { intros r Hr j. by apply valid_not_fresh. }
  set (vm1 := poke vm0 out cell).
  assert (Hout0 : is_Some (load vm0 out)) by (by rewrite V0).
  assert (E1 : py_newobject vm out tp_slice 3 0 = Some vm1).
  { rewrite py_newobject_store. by apply store_Some. }
  assert (L1out : load vm1 out = Some cell) by (by apply load_poke_eq).
  assert (H1 : heap vm1 !! p = Some o0).
  { unfold vm1. rewrite heap_poke_other; [done | by apply F]. }
  assert (A : forall r, is_Some (load vm r) ->
            exists x, load vm1 r = Some x /\ (r <> out -> load vm r = Some x)).
  { intros r Hr. destruct (decide (r = out)) as [->|Hne].
    - exists cell. split; [done | congruence].
    - destruct Hr as [x Hx]. exists x. split; [| done].
      unfold vm1. rewrite load_poke_ne by done. rewrite V0 by eauto. done. }
  destruct (A start Hstart) as (a & La & Pa).
  destruct (A stop Hstop) as (b & Lb & Pb).
  destruct (A step Hstep) as (c & Lc & Pc).
  destruct (py_setslot_step vm1 out 0 start tp_slice p a o0 L1out La H1)
    as (vm2 & E2 & H2 & K2); [lia | rewrite Hc0; simpl; lia |].
  set (o2 := set_slot_cells o0 _) in *.
  destruct (py_setslot_step vm2 out 1 stop tp_slice p b o2)
    as (vm3 & E3 & H3 & K3);
    [ rewrite K2 by (by apply F); done | rewrite K2 by (by apply F); done | done
    | lia | unfold o2; simpl; rewrite length_insert, Hc0; simpl; lia |].
  set (o3 := set_slot_cells o2 _) in *.
  destruct (py_setslot_step vm3 out 2 step tp_slice p c o3)
    as (vm4 & E4 & H4 & K4);
    [ rewrite K3, K2 by (by apply F); done
    | rewrite K3, K2 by (by apply F); done | done | lia
    | unfold o3, o2; simpl; rewrite !length_insert, Hc0; simpl; lia |].
  exists vm4, (set_slot_cells o3 (<[Z.to_nat 2 := c]> (slot_cells o3))), a, b, c.
  split. { unfold py_newslice. rewrite E1. simpl. rewrite E2. simpl. by rewrite E3. }
  split. { rewrite K4, K3, K2 by (by apply F). done. }
  split; [done |]. split; [done |]. split; [done |].
  split. { unfold o3, o2. simpl. by rewrite Hc0. }
  split. { rewrite K4, K3, K2 by (by apply F). done. }
  split. { rewrite K4, K3, K2 by (by apply F). done. }
  split. { rewrite K4, K3, K2 by (by apply F). done. }
  done.
Qed.

(** ** No call changes the user data of an existing object *)

Lemma heap_frame_set_type vm out t vm' : set_type vm out t = Some vm' -> heap_frame vm vm'.
Proof. unfold set_type. intros H. inv_bind H. by eapply heap_frame_store. Qed.

Lemma heap_frame_set_is_ptr vm out b vm' :
  set_is_ptr vm out b = Some vm' -> heap_frame vm vm'.
Proof. unfold set_is_ptr. intros H. inv_bind H. by eapply heap_frame_store. Qed.

Lemma heap_frame_set_payload vm out u vm' :
  set_payload vm out u = Some vm' -> heap_frame vm vm'.
Proof. unfold set_payload. intros H. inv_bind H. by eapply heap_frame_store. Qed.

Lemma heap_frame_write3 vm out t b u vm' :
  (vm1 ← set_type vm out t; vm2 ← set_is_ptr vm1 out b; set_payload vm2 out u)
    = Some vm' -> heap_frame vm vm'.
Proof. rewrite write_type_ptr_payload. apply heap_frame_store. Qed.

Lemma heap_frame_write2 vm out t b vm' :
  (vm1 ← set_type vm out t; set_is_ptr vm1 out b) = Some vm' -> heap_frame vm vm'.
Proof.
  intros H. inv_bind H.
  eapply heap_frame_trans; [by eapply heap_frame_set_type | by eapply heap_frame_set_is_ptr].
Qed.

(** A frame property that holds away from the freshly allocated address
    holds everywhere, since nothing lived at that address. *)
Lemma heap_frame_fresh vm vm' :
  (forall q, q <> length (heap vm) -> obj_kept vm vm' q) -> heap_frame vm vm'.
Proof.
  intros H q. destruct (decide (q = length (heap vm))) as [->|Hne]; [| by apply H].
  intros o Ho. apply lookup_lt_Some in Ho. lia.
Qed.

Lemma heap_frame_py_newobject vm out t slots udsize vm' :
  py_newobject vm out t slots udsize = Some vm' -> heap_frame vm vm'.
Proof.
  rewrite py_newobject_store. intros H.
  eapply heap_frame_trans; [apply heap_frame_gcnew | by eapply heap_frame_store].
Qed.

Lemma heap_frame_py_newbytes vm out data size vm' :
  py_newbytes vm out data size = Some vm' -> heap_frame vm vm'.
Proof.
  unfold py_newbytes. intros H. apply heap_frame_fresh. intros q Hq.
  pose proof (heap_frame_gcnew vm tp_bytes 0 (to_int (sizeof_int + size)) q) as G.
  destruct (pk_ManagedHeap__gcnew vm tp_bytes 0 (to_int (sizeof_int + size))) as [vm0 p] eqn:E.
  assert (p = length (heap vm)) as -> by (by injection E as _ <-).
  simpl in G. inv_bind H. inv_bind H. inv_bind H.
  apply heap_frame_write3 in H.
  eapply obj_kept_trans; [exact G |].
  eapply obj_kept_trans; [eapply obj_kept_ud_write; [exact E0 | done] |].
  eapply obj_kept_trans; [eapply obj_kept_ud_write; [exact E2 | done] |].
  apply H.
Qed.

Lemma heap_frame_py_newstrn vm out data size vm' :
  py_newstrn vm out data size = Some vm' -> heap_frame vm vm'.
Proof.
  unfold py_newstrn. intros H. apply heap_frame_fresh. intros q Hq.
  set (n := to_int (sizeof_c11_string + size + 1)) in *.
  pose proof (heap_frame_gcnew vm tp_str 0 n q) as G.
  destruct (pk_ManagedHeap__gcnew vm tp_str 0 n) as [vm0 p] eqn:E.
  assert (p = length (heap vm)) as -> by (by injection E as _ <-).
  simpl in G. inv_bind H. apply heap_frame_write3 in H.
  unfold c11_string__ctor2 in E0. inv_bind E0. inv_bind E0. inv_bind E0.
  eapply obj_kept_trans; [exact G |].
  eapply obj_kept_trans; [eapply obj_kept_ud_write; [exact E2 | done] |].
  eapply obj_kept_trans; [eapply obj_kept_ud_write; [exact E3 | done] |].
  eapply obj_kept_trans; [eapply obj_kept_ud_write; [exact E0 | done] |].
  apply H.
Qed.

Lemma heap_frame_py_setslot vm self i val vm' :
  py_setslot vm self i val = Some vm' -> heap_frame vm vm'.
Proof.
  unfold py_setslot. intros H. inv_bind H. inv_bind H.
  destruct (is_ptr x); [| discriminate]. destruct (payload x); try discriminate.
  case_decide; [| discriminate]. by eapply heap_frame_store.
Qed.

Lemma heap_frame_py_setdict vm self name val vm' :
  py_setdict vm self name val = Some vm' -> heap_frame vm vm'.
Proof.
  unfold py_setdict. intros H. inv_bind H. inv_bind H.
  destruct (is_ptr x); [| discriminate]. destruct (payload x); try discriminate.
  inv_bind H. inv_bind H. injection H as <-.
  intros q o Ho. simpl. destruct (decide (p = q)) as [->|Hne].
  - rewrite list_lookup_insert_eq by (by eapply lookup_lt_Some).
    assert (o = x1) as -> by congruence. eauto.
  - rewrite list_lookup_insert_ne by done. eauto.
Qed.

Lemma heap_py_name vm s n vm' : py_name vm s = Some (n, vm') -> heap vm' = heap vm.
Proof. intros H. apply py_name_only_names in H. by rewrite H. Qed.

Lemma heap_frame_py_bindnativefunc vm obj name f tmp0 vm' :
  py_bindnativefunc vm obj name f tmp0 = Some vm' -> heap_frame vm vm'.
Proof.
  unfold py_bindnativefunc. rewrite newnativefunc_local. simpl.
  intros H. inv_bind H. destruct x as [n vm1]. inv_bind H. injection H as <-.
  apply heap_py_name in E. apply heap_frame_py_setdict in E0.
  intros q o Ho. apply (E0 q o). by rewrite E.
Qed.

Lemma heap_frame_py_newslice vm out start stop step vm' :
  py_newslice vm out start stop step = Some vm' -> heap_frame vm vm'.
Proof.
  unfold py_newslice. intros H. inv_bind H. inv_bind H. inv_bind H.
  eapply heap_frame_trans; [by eapply heap_frame_py_newobject |].
  eapply heap_frame_trans; [by eapply heap_frame_py_setslot |].
  eapply heap_frame_trans; by eapply heap_frame_py_setslot.
Qed.

Lemma heap_frame_py_push vm src vm' : py_push vm src = Some vm' -> heap_frame vm vm'.
Proof.
  unfold py_push. intros H. inv_bind H. case_decide; injection H as <-.
  - apply (heap_frame_gcnew vm tp_StackOverflowError 2 0).
  - by intros q; apply obj_kept_heap_eq.
Qed.

Lemma heap_frame_run_call vm c vm' : run_call vm c = Some vm' -> heap_frame vm vm'.
Proof.
  destruct c; simpl.
  - apply heap_frame_write3.
  - apply heap_frame_write3.
  - apply heap_frame_write3.
  - apply heap_frame_write2.
  - apply heap_frame_write2.
  - apply heap_frame_write2.
  - apply heap_frame_set_type.
  - unfold py_newstr. intros H. inv_bind H. by eapply heap_frame_py_newstrn.
  - apply heap_frame_py_newstrn.
  - apply heap_frame_py_newbytes.
  - intros [= <-]. apply heap_frame_refl.
  - intros [= <-]. apply heap_frame_refl.
  - apply heap_frame_write3.
  - apply heap_frame_py_bindnativefunc.
  - apply heap_frame_py_bindnativefunc.
  - apply heap_frame_py_bindnativefunc.
  - apply heap_frame_py_newslice.
  - apply heap_frame_py_newobject.
  - apply heap_frame_py_setslot.
  - apply heap_frame_py_setdict.
  - destruct (py_name vm s) as [[n vm1]|] eqn:E; simpl; [| discriminate].
    intros [= <-]. apply heap_py_name in E. by intros q; apply obj_kept_heap_eq.
  - apply heap_frame_py_push.
Qed.

Lemma heap_frame_run_calls cs : forall vm vm',
  run_calls vm cs = Some vm' -> heap_frame vm vm'.
Proof.
  induction cs as [| c cs IH]; simpl; intros vm vm' H.
  - injection H as <-. apply heap_frame_refl.
  - inv_bind H. eapply heap_frame_trans; [by eapply heap_frame_run_call | by apply IH].
Qed.

(** ** C4: [py_newbytes] *)

Lemma bytes_int_int_bytes x :
  - 2 ^ 31 <= x <= INT_MAX -> bytes_int (int_bytes x) = Some x.
Proof.
  intros H. unfold bytes_int, int_bytes, to_int, INT_MAX in *. f_equal.
  change (2 ^ 31) with 2147483648 in *. change (2 ^ 32) with 4294967296.
  Z.div_mod_to_equations. lia.
Qed.

Lemma mapM_id_Some {A} (l : list A) : mapM id (Some <$> l) = Some l.
Proof.
  induction l as [| x l IH]; [done |].
  rewrite fmap_cons. cbn [mapM]. rewrite IH. done.
Qed.

Lemma ud_bytes_written vm p o bs :
  heap vm !! p = Some o -> userdata o = Some <$> bs -> ud_bytes vm p = Some bs.
Proof. intros Ho Hud. unfold ud_bytes. rewrite Ho. simpl. rewrite Hud. apply mapM_id_Some. Qed.


(** ** C6: the name pool *)

Lemma index_of_Some s l i : index_of s l = Some i -> l !! i = Some s.
Proof.
  revert i. induction l as [| x l IH]; simpl; intros i H; [discriminate |].
  case_decide as Hx.
  - injection H as <-. by rewrite Hx.
  - destruct (index_of s l) as [j|]; [| discriminate]. injection H as <-.
    simpl. by apply IH.
Qed.

Lemma index_of_None s l : index_of s l = None -> s ∉ l.
Proof.
  induction l as [| x l IH]; simpl; intros H.
  - apply not_elem_of_nil.
  - case_decide as Hx; [discriminate |].
    destruct (index_of s l); [discriminate |].
    apply not_elem_of_cons. split; [congruence | by apply IH].
Qed.

Lemma index_of_NoDup s l i : NoDup l -> l !! i = Some s -> index_of s l = Some i.
Proof.
  intros Hnd. revert i. induction Hnd as [| x l Hx Hnd IH]; intros i H.
  - by rewrite lookup_nil in H.
  - simpl. destruct i as [| i]; simpl in H.
    + injection H as ->. by rewrite decide_True.
    + rewrite decide_False.
      * by rewrite (IH i H).
      * intros ->. apply Hx. by eapply list_elem_of_lookup_2.
Qed.

Lemma py_name2str_Some vm n s :
  py_name2str vm n = Some s <->
  1 <= n /\ names vm !! Z.to_nat (n - 1) = Some s.
Proof.
  unfold py_name2str. case_decide as Hn.
  - split; [by intros H | by intros [_ H]].
  - split; [discriminate | by intros [H _]].
Qed.

Lemma py_name_result vm b n vm' :
  pool_wf vm -> py_name vm b = Some (n, vm') ->
  py_name2str vm' n = Some b /\ 1 <= n <= 65535 /\ pool_wf vm' /\
  names vm `prefix_of` names vm'.
Proof.
  intros [Hnd Hlen]. unfold py_name.
  destruct (index_of b (names vm)) as [i|] eqn:Ei.
  - intros [= <- <-]. apply index_of_Some in Ei.
    split; [| split; [| split]]; [| | done | done].
    + apply py_name2str_Some. split; [lia |].
      by replace (Z.to_nat (Z.of_nat (S i) - 1)) with i by lia.
    + apply lookup_lt_Some in Ei. lia.
  - case_decide as Hlt; [| discriminate]. intros [= <- <-].
    split; [| split; [| split]].
    + apply py_name2str_Some. split; [lia |]. simpl.
      replace (Z.to_nat (Z.of_nat (S (length (names vm))) - 1))
        with (length (names vm)) by lia.
      by apply list_lookup_middle.
    + lia.
    + split; simpl.
      * apply NoDup_app. split; [done |]. split; [| apply NoDup_singleton].
        intros x Hx ->%list_elem_of_singleton. by apply (index_of_None _ _ Ei).
      * rewrite length_app. simpl. lia.
    + simpl. by apply prefix_app_r.
Qed.

Lemma pool_step_refl vm : pool_step vm vm.
Proof. by split. Qed.

Lemma pool_step_trans vm1 vm2 vm3 :
  pool_step vm1 vm2 -> pool_step vm2 vm3 -> pool_step vm1 vm3.
Proof. intros [W1 P1] [W2 P2]. split; [auto | by etrans]. Qed.

Lemma pool_step_names_eq vm vm' : names vm' = names vm -> pool_step vm vm'.
Proof. intros E. unfold pool_step, pool_wf. by rewrite E. Qed.

Lemma names_poke vm r c : names (poke vm r c) = names vm.
Proof. by destruct r. Qed.

Lemma names_store vm r c vm' : store vm r c = Some vm' -> names vm' = names vm.
Proof. intros [_ ->]%store_inv. apply names_poke. Qed.

Lemma names_write3 vm out t b u vm' :
  (vm1 ← set_type vm out t; vm2 ← set_is_ptr vm1 out b; set_payload vm2 out u)
    = Some vm' -> names vm' = names vm.
Proof. rewrite write_type_ptr_payload. apply names_store. Qed.

Lemma names_write2 vm out t b vm' :
  (vm1 ← set_type vm out t; set_is_ptr vm1 out b) = Some vm' -> names vm' = names vm.
Proof. rewrite write_type_ptr. intros H. inv_bind H. by eapply names_store. Qed.

Lemma names_set_type vm out t vm' : set_type vm out t = Some vm' -> names vm' = names vm.
Proof. unfold set_type. intros H. inv_bind H. by eapply names_store. Qed.

Lemma names_ud_write vm p off bs vm' :
  ud_write vm p off bs = Some vm' -> names vm' = names vm.
Proof. unfold ud_write. intros H. inv_bind H. inv_bind H. by injection H as <-. Qed.

Lemma names_py_newobject vm out t slots udsize vm' :
  py_newobject vm out t slots udsize = Some vm' -> names vm' = names vm.
Proof. rewrite py_newobject_store. intros H. by apply names_store in H. Qed.

Lemma names_py_newbytes vm out data size vm' :
  py_newbytes vm out data size = Some vm' -> names vm' = names vm.
Proof.
  unfold py_newbytes. simpl. intros H. inv_bind H. inv_bind H. inv_bind H.
  apply names_write3 in H. apply names_ud_write in E, E1. simpl in E. congruence.
Qed.

Lemma names_py_newstrn vm out data size vm' :
  py_newstrn vm out data size = Some vm' -> names vm' = names vm.
Proof.
  unfold py_newstrn. simpl. intros H. inv_bind H. apply names_write3 in H.
  unfold c11_string__ctor2 in E. inv_bind E. inv_bind E. inv_bind E.
  apply names_ud_write in E, E1, E2. simpl in *. congruence.
Qed.

Lemma names_py_setslot vm self i val vm' :
  py_setslot vm self i val = Some vm' -> names vm' = names vm.
Proof.
  unfold py_setslot. intros H. inv_bind H. inv_bind H.
  destruct (is_ptr x); [| discriminate]. destruct (payload x); try discriminate.
  case_decide; [| discriminate]. by eapply names_store.
Qed.

Lemma names_py_setdict vm self name val vm' :
  py_setdict vm self name val = Some vm' -> names vm' = names vm.
Proof.
  unfold py_setdict. intros H. inv_bind H. inv_bind H.
  destruct (is_ptr x); [| discriminate]. destruct (payload x); try discriminate.
  inv_bind H. inv_bind H. by injection H as <-.
Qed.

Lemma names_py_newslice vm out start stop step vm' :
  py_newslice vm out start stop step = Some vm' -> names vm' = names vm.
Proof.
  unfold py_newslice. intros H. inv_bind H. inv_bind H. inv_bind H.
  apply names_py_newobject in E. apply names_py_setslot in E0, E1, H. congruence.
Qed.

Lemma names_py_push vm src vm' : py_push vm src = Some vm' -> names vm' = names vm.
Proof. unfold py_push. intros H. inv_bind H. by case_decide; injection H as <-. Qed.

Lemma pool_step_py_name vm s n vm' : py_name vm s = Some (n, vm') -> pool_step vm vm'.
Proof.
  intros H. split.
  - intros W. by destruct (py_name_result vm s n vm' W H) as (_ & _ & W' & _).
  - unfold py_name in H. destruct (index_of s (names vm)).
    + by injection H as _ <-.
    + case_decide; [| discriminate]. injection H as _ <-. simpl. by apply prefix_app_r.
Qed.

Lemma pool_step_py_bindnativefunc vm obj name f tmp0 vm' :
  py_bindnativefunc vm obj name f tmp0 = Some vm' -> pool_step vm vm'.
Proof.
  unfold py_bindnativefunc. rewrite newnativefunc_local. simpl.
  intros H. inv_bind H. destruct x as [n vm1]. inv_bind H. injection H as <-.
  apply pool_step_py_name in E. apply names_py_setdict in E0.
  eapply pool_step_trans; [| apply pool_step_names_eq; simpl; exact E0].
  exact E.
Qed.

Lemma pool_step_run_call vm c vm' : run_call vm c = Some vm' -> pool_step vm vm'.
Proof.
  destruct c; simpl; intros H;
    try (apply pool_step_names_eq;
         first [ by eapply names_write3 | by eapply names_write2
               | by eapply names_set_type | by eapply names_py_newstrn
               | by eapply names_py_newbytes | by eapply names_py_newslice
               | by eapply names_py_newobject | by eapply names_py_setslot
               | by eapply names_py_setdict | by eapply names_py_push
               | by injection H as <- ]);
    try (by eapply pool_step_py_bindnativefunc).
  - unfold py_newstr in H. inv_bind H.
    apply pool_step_names_eq. by eapply names_py_newstrn.
  - destruct (py_name vm s) as [[n vm1]|] eqn:E; simpl in H; [| discriminate].
    injection H as <-. by eapply pool_step_py_name.
Qed.

Lemma pool_step_run_calls cs : forall vm vm',
  run_calls vm cs = Some vm' -> pool_step vm vm'.
Proof.
  induction cs as [| c cs IH]; simpl; intros vm vm' H.
  - injection H as <-. apply pool_step_refl.
  - inv_bind H. eapply pool_step_trans; [by eapply pool_step_run_call | by apply IH].
Qed.

Lemma py_name2str_prefix vm vm' n s :
  names vm `prefix_of` names vm' ->
  py_name2str vm n = Some s -> py_name2str vm' n = Some s.
Proof.
  intros [k Hk]. rewrite !py_name2str_Some. intros [Hn Hl].
  split; [done |]. rewrite Hk. by apply lookup_app_l_Some.
Qed.

(** C6.  The name pool is a bijection between interned strings and 16-bit
    ids.  In a well-formed pool: interning the string an id looks up to
    gives that id back and changes nothing; interning any string [b]
    returns an id in [1 .. 65535] that looks up to [b], and does return
    one unless [b] is new and the pool is full; two ids that look up to
    the same string are the same id; and what an id looks up to stays the
    same through every later sequence of API calls, which also keep the
    pool well formed. *)
Theorem name_pool_bijection (vm : VM) :
  pool_wf vm ->
  (forall n s, py_name2str vm n = Some s -> py_name vm s = Some (n, vm)) /\
  (forall b n vm', py_name vm b = Some (n, vm') ->
     py_name2str vm' n = Some b /\ 1 <= n <= 65535) /\
  (forall b, Z.of_nat (length (names vm)) < 65535 \/ b ∈ names vm ->
     is_Some (py_name vm b)) /\
  (forall n m s, py_name2str vm n = Some s -> py_name2str vm m = Some s -> n = m) /\
  (forall cs vm', run_calls vm cs = Some vm' ->
     pool_wf vm' /\
     forall n s, py_name2str vm n = Some s -> py_name2str vm' n = Some s).
Proof.
  intros W. pose proof W as [Hnd Hlen].
  assert (R : forall n s, py_name2str vm n = Some s -> py_name vm s = Some (n, vm)).
  { intros n s [Hn Hl]%py_name2str_Some. unfold py_name.
    rewrite (index_of_NoDup _ _ _ Hnd Hl). do 2 f_equal. lia. }
  split; [exact R |]. split; [| split; [| split]].
  - intros b n vm' H. by destruct (py_name_result vm b n vm' W H) as (? & ? & _).
  - intros b Hb. unfold py_name.
    destruct (index_of b (names vm)) as [i|] eqn:Ei; [eauto |].
    destruct Hb as [Hlt | Hin].
    + rewrite decide_True by done. eauto.
    + by apply index_of_None in Ei.
  - intros n m s Hn Hm. apply R in Hn, Hm. congruence.
  - intros cs vm' Hrun. destruct (pool_step_run_calls cs vm vm' Hrun) as [W' P].
    split; [auto |]. intros n s. by apply py_name2str_prefix.
Qed.

(** ** C3: magic-slot lookup along the base chain *)

Lemma load_magic_Some vm name t ti :
  magic_name_ok vm name -> type_info vm t = Some ti ->
  exists c, load vm (py_tpgetmagic t name) = Some c.
Proof.
  intros [Hn Hm] Hti. simpl. rewrite Hti. simpl. rewrite decide_True by done.
  apply type_info_Some in Hti as [_ Hti].
  apply lookup_lt_is_Some. by eapply Hm.
Qed.

Lemma base_chain_valid vm t l :
  base_chain vm t l -> forall x, x ∈ l -> is_Some (type_info vm x).
Proof.
  induction 1 as [t ti Hti Hb | t ti l Hti Hb Hc IH]; intros x Hx.
  - apply list_elem_of_singleton in Hx as ->. eauto.
  - apply elem_of_cons in Hx as [-> | Hx]; [eauto | by apply IH].
Qed.

Lemma base_chain_length vm t l :
  registry_wf vm -> 1 <= t -> base_chain vm t l -> (length l <= Z.to_nat t)%nat.
Proof.
  intros Hwf Ht Hc. induction Hc as [t ti Hti Hb | t ti l Hti Hb Hc IH].
  - simpl. lia.
  - apply type_info_Some in Hti as [_ Hti].
    pose proof (Hwf _ _ Hti ltac:(lia)) as Hbase.
    simpl. specialize (IH ltac:(lia)). lia.
Qed.

(** The walk finds what the spec's wording describes, as soon as it is
    allowed as many steps as the chain is long. *)
Lemma tpfindmagic_walk_chain vm name t l :
  magic_name_ok vm name -> base_chain vm t l ->
  forall steps, (length l <= steps)%nat ->
    tpfindmagic_walk steps vm t name = Some (first_non_nil vm name l).
Proof.
  intros Hm Hc. induction Hc as [t ti Hti Hb | t ti l Hti Hb Hc IH];
    intros steps Hs; (destruct steps as [| steps]; [simpl in Hs; lia |]);
    destruct (load_magic_Some vm name t ti Hm Hti) as [c Hl];
    cbn [tpfindmagic_walk first_non_nil]; rewrite Hl; simpl;
    destruct (py_isnil c); try done; rewrite Hti; simpl.
  - by rewrite decide_True.
  - rewrite decide_False by done. apply IH. simpl in Hs. lia.
Qed.

Lemma ancestors_upto_chain vm steps : forall t,
  registry_wf vm -> 1 <= t -> is_Some (type_info vm t) ->
  (Z.to_nat t <= steps)%nat ->
  base_chain vm t (ancestors_upto steps vm t).
Proof.
  induction steps as [| steps IH]; intros t Hwf Ht [ti Hti] Hs; [lia |].
  simpl. rewrite Hti. pose proof Hti as Hti'.
  apply type_info_Some in Hti' as [_ Hl].
  pose proof (Hwf _ _ Hl ltac:(lia)) as Hbase.
  case_decide as Hb.
  - by eapply base_chain_root.
  - eapply base_chain_step; [done | done |].
    apply IH; [done | lia | | lia].
    unfold type_info. rewrite decide_True by lia.
    apply lookup_lt_is_Some. apply lookup_lt_Some in Hl. lia.
Qed.

Lemma first_non_nil_None vm name l :
  (forall x, x ∈ l -> is_Some (load vm (py_tpgetmagic x name))) ->
  first_non_nil vm name l = None <->
  forall x, x ∈ l ->
    exists c, load vm (py_tpgetmagic x name) = Some c /\ py_isnil c = true.
Proof.
  induction l as [| t l IH]; intros Hv.
  - split; [| done]. intros _ x Hx. by apply not_elem_of_nil in Hx.
  - destruct (Hv t ltac:(left)) as [c Hc].
    assert (Hv' : forall x, x ∈ l -> is_Some (load vm (py_tpgetmagic x name)))
      by (intros x Hx; apply Hv; by right).
    cbn [first_non_nil]. rewrite Hc. destruct (py_isnil c) eqn:En.
    + rewrite (IH Hv'). split.
      * intros H x [-> | Hx]%elem_of_cons; [eauto | by apply H].
      * intros H x Hx. apply H. by right.
    + split; [discriminate |]. intros H.
      destruct (H t ltac:(left)) as (c' & Hc' & En'). congruence.
Qed.

Lemma first_non_nil_Some vm name l r :
  first_non_nil vm name l = Some r ->
  exists pre t post c,
    l = pre ++ t :: post /\ r = py_tpgetmagic t name /\
    load vm r = Some c /\ py_isnil c = false /\
    forall x c', x ∈ pre -> load vm (py_tpgetmagic x name) = Some c' ->
                 py_isnil c' = true.
Proof.
  induction l as [| t l IH]; [discriminate |].
  cbn [first_non_nil].
  destruct (load vm (py_tpgetmagic t name)) as [c|] eqn:Hc.
  - destruct (py_isnil c) eqn:En.
    + intros H. destruct (IH H) as (pre & t' & post & c1 & -> & -> & Hl & Hn & Hp).
      exists (t :: pre), t', post, c1. repeat split; try done.
      intros x c' [-> | Hx]%elem_of_cons Hx'; [congruence | by eapply Hp].
    + intros [= <-]. exists [], t, l, c. repeat split; try done.
      intros x c' Hx. by apply not_elem_of_nil in Hx.
  - intros H. destruct (IH H) as (pre & t' & post & c1 & -> & -> & Hl & Hn & Hp).
    exists (t :: pre), t', post, c1. repeat split; try done.
    intros x c' [-> | Hx]%elem_of_cons Hx'; [congruence | by eapply Hp].
Qed.

(** C3.  For every type [T] of a well-formed registry and every magic name,
    [py_tpfindmagic(T, name)] returns the first non-nil magic-slot entry
    found while walking the base chain from [T]: it equals the first
    non-nil [py_tpgetmagic(T_i, name)] over the ancestors [T = T_0, T_1,
    ...] in base-chain order (for any listing of that chain, and the
    computed [ancestors] is one), it is [NULL] exactly when every
    ancestor's slot is nil, and a reference it returns is the slot of an
    ancestor all of whose predecessors in the chain have a nil slot. *)
Theorem py_tpfindmagic_first_non_nil (vm : VM) (T : py_Type) (name : py_Name) :
  registry_wf vm -> magic_name_ok vm name ->
  1 <= T -> is_Some (type_info vm T) ->
  base_chain vm T (ancestors vm T) /\
  (forall chain, base_chain vm T chain ->
     py_tpfindmagic vm T name = Some (first_non_nil vm name chain)) /\
  (py_tpfindmagic vm T name = Some None <->
   forall Ti, Ti ∈ ancestors vm T ->
     exists c, load vm (py_tpgetmagic Ti name) = Some c /\ py_isnil c = true) /\
  (forall r, py_tpfindmagic vm T name = Some (Some r) ->
     exists pre Ti post c,
       ancestors vm T = pre ++ Ti :: post /\ r = py_tpgetmagic Ti name /\
       load vm r = Some c /\ py_isnil c = false /\
       forall Tj c', Tj ∈ pre -> load vm (py_tpgetmagic Tj name) = Some c' ->
                     py_isnil c' = true).
Proof.
  intros Hwf Hm HT Hv.
  assert (Hlt : (Z.to_nat T < length (types vm))%nat).
  { destruct Hv as [ti Hti]. apply type_info_Some in Hti as [_ Hti].
    by eapply lookup_lt_Some. }
  assert (Hc : base_chain vm T (ancestors vm T)).
  { apply ancestors_upto_chain; [done | done | done | lia]. }
  assert (Hf : forall chain, base_chain vm T chain ->
             py_tpfindmagic vm T name = Some (first_non_nil vm name chain)).
  { intros chain Hch. apply tpfindmagic_walk_chain; [done | done |].
    pose proof (base_chain_length vm T chain Hwf HT Hch). lia. }
  split; [done |]. split; [done |]. rewrite (Hf _ Hc). split.
  - rewrite <- first_non_nil_None.
    + split; [by intros [= ->] | by intros ->].
    + intros x Hx. destruct (base_chain_valid _ _ _ Hc x Hx) as [ti Hti].
      destruct (load_magic_Some vm name x ti Hm Hti) as [c Hl]. eauto.
  - intros r [= H]. by apply first_non_nil_Some.
Qed.

(** ** C7: pushing onto a full value stack *)

(** C7.  In every state whose value stack holds [PK_VM_STACK_SIZE] (16384)
    cells, pushing one more value raises [StackOverflowError]: the
    exception slot gets an exception object of that type and the stack is
    not written.  Below that height [py_push] succeeds without raising: the
    pushed cell becomes the new top and the exception slot is untouched.
    Either way the height stays within [PK_VM_STACK_SIZE]. *)
Theorem py_push_stack_overflow (vm : VM) (src : py_Ref) (c : py_TValue) :
  load vm src = Some c ->
  Z.of_nat (length (stack vm)) <= PK_VM_STACK_SIZE ->
  PK_VM_STACK_SIZE = 16384 /\
  (Z.of_nat (length (stack vm)) = PK_VM_STACK_SIZE ->
   exists vm' p o,
     py_push vm src = Some vm' /\ stack vm' = stack vm /\
     curr_exception vm' = mk_TValue tp_StackOverflowError true (_obj p) /\
     heap vm' !! p = Some o /\ ob_type o = tp_StackOverflowError) /\
  (Z.of_nat (length (stack vm)) < PK_VM_STACK_SIZE ->
   exists vm',
     py_push vm src = Some vm' /\ stack vm' = stack vm ++ [c] /\
     curr_exception vm' = curr_exception vm /\ heap vm' = heap vm) /\
  (forall vm', py_push vm src = Some vm' ->
     Z.of_nat (length (stack vm')) <= PK_VM_STACK_SIZE).
Proof.
  intros Hc Hh. split; [done |]. unfold py_push. rewrite Hc. simpl.
  split; [| split].
  - intros Hfull. rewrite decide_True by lia.
    eexists _, (length (heap vm)), _. split; [done |].
    split; [done |]. split; [done |].
    split; [simpl; by apply list_lookup_middle | done].
  - intros Hlt. rewrite decide_False by lia. eexists. by split.
  - intros vm'. case_decide as Hd; intros [= <-]; simpl; [done |].
    rewrite length_app. simpl. lia.
Qed.

(** * The theorems at concrete inputs *)

Example py_newbytes_example :
  (vm ← py_newbytes example_vm (ref_reg 0) [1; 2; 3] 3;
   Some (reg vm !! 0%nat, ud_bytes vm 3))
  = Some (Some (mk_TValue tp_bytes true (_obj 3%nat)), Some [3; 0; 0; 0; 1; 2; 3]).
Proof. reflexivity. Qed.

Example py_newstr_example :
  (vm ← py_newstr example_vm (ref_reg 1) [104; 105; 0; 33]; ud_bytes vm 3)
  = Some [2; 0; 0; 0; 104; 105; 0].
Proof. reflexivity. Qed.

Example py_tpfindmagic_example :
  py_tpfindmagic example_vm 3 1 = Some (Some (ref_magic 1 1)) /\
  py_tpfindmagic example_vm 3 2 = Some (Some (ref_magic 3 2)) /\
  py_tpfindmagic example_vm 3 0 = Some None /\
  ancestors example_vm 3 = [3; 1].
Proof. repeat split; reflexivity. Qed.

Example py_bindmethod2_example :
  (vm ← py_bindmethod2 example_vm 3 "foo" 555 BindType_CLASSMETHOD nil_cell;
   o ← heap vm !! 2%nat; d ← ob_dict o;
   Some (d !! 3, py_name2str vm 3, locals vm))
  = Some (Some (nativefunc_cell 555), Some "foo", []).
Proof. reflexivity. Qed.

Example py_newslice_alias_example :
  (vm ← py_newslice example_vm (ref_reg 0) (ref_reg 0) (ref_reg 1) (ref_reg 2);
   o ← heap vm !! 3%nat; Some (slot_cells o))
  = Some [mk_TValue tp_slice true (_obj 3%nat); int_cell 8; int_cell 9].
Proof. reflexivity. Qed.

Lemma constructors_establish_cell_invariant_witness :
  is_Some (load example_vm (ref_reg 0)) /\
  writes_immediate (py_newint example_vm (ref_reg 0) 42) (ref_reg 0) tp_int /\
  writes_immediate (py_newnone example_vm (ref_reg 0)) (ref_reg 0) tp_none_type /\
  writes_pointer (py_newstrn example_vm (ref_reg 0) [104; 105] 2) (ref_reg 0) tp_str /\
  writes_pointer (py_newbytes example_vm (ref_reg 0) [1; 2; 3] 3) (ref_reg 0) tp_bytes /\
  writes_pointer (py_newobject example_vm (ref_reg 0) tp_slice 3 0) (ref_reg 0) tp_slice.
Proof.
  assert (H : is_Some (load example_vm (ref_reg 0))) by (eexists; reflexivity).
  destruct (constructors_establish_cell_invariant example_vm (ref_reg 0) H)
    as (Hint & _ & _ & Hnone & _ & _ & _ & Hstrn & Hbytes & Hobj).
  split; [exact H |]. split; [apply Hint |]. split; [exact Hnone |].
  split; [apply Hstrn; unfold sizeof_c11_string, sizeof_int, INT_MAX; simpl; lia |].
  split; [apply Hbytes; unfold sizeof_int, INT_MAX; simpl; lia |]. apply Hobj.
Defined.

Lemma py_newnull_writes_only_type_witness :
  load example_vm (ref_tpobject 1) = Some (mk_TValue tp_type true (_obj 0%nat)) /\
  exists vm' c',
    py_newnull example_vm (ref_tpobject 1) = Some vm' /\
    load vm' (ref_tpobject 1) = Some c' /\ py_isnil c' = true /\
    is_ptr c' = true /\ payload c' = _obj 0%nat.
Proof.
  assert (H : load example_vm (ref_tpobject 1)
              = Some (mk_TValue tp_type true (_obj 0%nat))) by reflexivity.
  split; [exact H |].
  destruct (py_newnull_writes_only_type example_vm (ref_tpobject 1) _ H)
    as (vm' & E & _ & _ & _ & Hstale).
  destruct (Hstale 0%nat eq_refl eq_refl) as (c' & L & N & P & Q).
  exists vm', c'. repeat split; assumption.
Defined.

Lemma py_newfunction_changes_nothing_witness :
  py_newfunction example_vm (ref_reg 0) 555 "f(x)" = Some example_vm /\
  forall c, load example_vm (ref_reg 0) = Some c -> type c = tp_function ->
            int_cell 7 = c.
Proof.
  destruct (py_newfunction_changes_nothing example_vm (ref_reg 0) 555 "f(x)"
              BindType_FUNCTION None None) as (_ & E & H).
  split; [exact E |].
  destruct (H example_vm E) as [_ K]. intros c Hc Ht.
  specialize (K c Hc Ht). by injection K.
Defined.

Lemma py_newslice_slots_witness :
  is_Some (load example_vm ref_retval) /\ is_Some (load example_vm (ref_reg 0)) /\
  is_Some (load example_vm (ref_reg 1)) /\ is_Some (load example_vm (ref_reg 2)) /\
  exists vm' o,
    py_newslice example_vm ref_retval (ref_reg 0) (ref_reg 1) (ref_reg 2) = Some vm' /\
    load vm' ref_retval = Some (mk_TValue tp_slice true (_obj 3%nat)) /\
    heap vm' !! 3%nat = Some o /\ ob_type o = tp_slice /\ ob_slots o = 3 /\
    slot_cells o = [int_cell 7; int_cell 8; int_cell 9].
Proof.
  assert (H0 : is_Some (load example_vm ref_retval)) by (eexists; reflexivity).
  assert (H1 : is_Some (load example_vm (ref_reg 0))) by (eexists; reflexivity).
  assert (H2 : is_Some (load example_vm (ref_reg 1))) by (eexists; reflexivity).
  assert (H3 : is_Some (load example_vm (ref_reg 2))) by (eexists; reflexivity).
  repeat (split; [assumption |]).
  destruct (py_newslice_slots example_vm ref_retval (ref_reg 0) (ref_reg 1)
              (ref_reg 2) H0 H1 H2 H3)
    as (vm' & o & a & b & c & E & L & Ho & Ht & Hn & Hs & _ & _ & _ & Pa & Pb & Pc).
  exists vm', o. repeat (split; [assumption |]).
  specialize (Pa ltac:(discriminate)). specialize (Pb ltac:(discriminate)).
  specialize (Pc ltac:(discriminate)).
  injection Pa as <-. injection Pb as <-. injection Pc as <-. exact Hs.
Defined.

(** The slice built in place of its own [start] argument does not hold the
    [start] cell that was passed: [*out] is overwritten before slot 0 is
    filled, so slot 0 gets the slice cell itself. *)
Lemma py_newslice_alias_counterexample :
  ~ newslice_holds_arguments example_vm (ref_reg 0) (ref_reg 0) (ref_reg 1) (ref_reg 2).
Proof.
  intros H.
  destruct (H (int_cell 7) (int_cell 8) (int_cell 9) eq_refl eq_refl eq_refl)
    as (vm' & p & o & E & L & Ho & _ & Hs).
  vm_compute in E. injection E as <-.
  vm_compute in L. injection L as <-.
  vm_compute in Ho. injection Ho as <-.
  discriminate Hs.
Qed.


Lemma example_pool_wf : pool_wf example_vm.
Proof.
  split; [| simpl; lia]. simpl.
  apply NoDup_cons. split; [| apply NoDup_singleton].
  intros H%list_elem_of_singleton. discriminate H.
Defined.

Lemma name_pool_bijection_witness :
  pool_wf example_vm /\
  py_name example_vm "__add__" = Some (2, example_vm) /\
  (forall n vm', py_name example_vm "foo" = Some (n, vm') ->
                 py_name2str vm' n = Some "foo") /\
  is_Some (py_name example_vm "foo").
Proof.
  pose proof example_pool_wf as W.
  destruct (name_pool_bijection example_vm W) as (R & I & T & _ & _).
  split; [exact W |]. split; [| split].
  - apply R. reflexivity.
  - intros n vm' H. exact (proj1 (I _ _ _ H)).
  - apply T. left. simpl. lia.
Defined.

Lemma example_registry_wf : registry_wf example_vm.
Proof.
  intros i ti H Hi.
  destruct i as [| [| [| [| i]]]]; simpl in H; try lia; try discriminate H;
    injection H as <-; simpl; lia.
Defined.

Lemma example_magic_name_ok : magic_name_ok example_vm 2.
Proof.
  split; [lia |]. intros i ti H.
  destruct i as [| [| [| [| i]]]]; simpl in H; try discriminate H;
    injection H as <-; simpl; lia.
Defined.

Lemma py_tpfindmagic_first_non_nil_witness :
  registry_wf example_vm /\ magic_name_ok example_vm 2 /\
  1 <= 2 /\ is_Some (type_info example_vm 2) /\
  base_chain example_vm 2 [2; 1] /\
  py_tpfindmagic example_vm 2 2 = Some (first_non_nil example_vm 2 [2; 1]) /\
  py_tpfindmagic example_vm 2 2 = Some None.
Proof.
  pose proof example_registry_wf as W. pose proof example_magic_name_ok as M.
  assert (H1 : 1 <= 2) by lia.
  assert (H2 : is_Some (type_info example_vm 2)) by (eexists; reflexivity).
  destruct (py_tpfindmagic_first_non_nil example_vm 2 2 W M H1 H2) as (C & F & N & _).
  split; [exact W |]. split; [exact M |]. split; [exact H1 |]. split; [exact H2 |].
  split; [exact C |]. split; [exact (F _ C) |].
  apply N. intros Ti HTi. change (ancestors example_vm 2) with [2; 1] in HTi.
  apply elem_of_cons in HTi as [-> | HTi].
  - exists nil_cell. split; reflexivity.
  - apply list_elem_of_singleton in HTi as ->. exists nil_cell. split; reflexivity.
Defined.

Lemma py_push_stack_overflow_witness :
  load full_stack_vm (ref_reg 0) = Some (int_cell 7) /\
  Z.of_nat (length (stack full_stack_vm)) = PK_VM_STACK_SIZE /\
  (exists vm' p o,
     py_push full_stack_vm (ref_reg 0) = Some vm' /\
     stack vm' = stack full_stack_vm /\
     curr_exception vm' = mk_TValue tp_StackOverflowError true (_obj p) /\
     heap vm' !! p = Some o /\ ob_type o = tp_StackOverflowError) /\
  (exists vm',
     py_push example_vm (ref_reg 0) = Some vm' /\
     stack vm' = stack example_vm ++ [int_cell 7] /\
     curr_exception vm' = curr_exception example_vm /\ heap vm' = heap example_vm).
Proof.
  assert (L : load full_stack_vm (ref_reg 0) = Some (int_cell 7)) by reflexivity.
  assert (Hfull : Z.of_nat (length (stack full_stack_vm)) = PK_VM_STACK_SIZE).
  { vm_compute. reflexivity. }
  split; [exact L |]. split; [exact Hfull |]. split.
  - destruct (py_push_stack_overflow full_stack_vm (ref_reg 0) _ L) as (_ & F & _).
    + rewrite Hfull. lia.
    + exact (F Hfull).
  - destruct (py_push_stack_overflow example_vm (ref_reg 0) (int_cell 7) eq_refl)
      as (_ & _ & B & _).
    + unfold PK_VM_STACK_SIZE. simpl. lia.
    + apply B. unfold PK_VM_STACK_SIZE. simpl. lia.
Defined.

(** * Further properties of [values.c] *)

(** ** The immediate constructors *)

Lemma immediate_call_store vm c out x :
  immediate_call c = Some out -> load vm out = Some x ->
  run_call vm c = store vm out (immediate_cell c x).
Proof.
  intros Hc Hx. destruct c; simpl in Hc; try discriminate;
    injection Hc as ->; simpl.
  - apply py_newint_store.
  - apply py_newfloat_store.
  - apply py_newbool_store.
  - by rewrite py_newnone_store, Hx.
  - by rewrite py_newnotimplemented_store, Hx.
  - by rewrite py_newellipsis_store, Hx.
  - unfold py_newnull, set_type. by rewrite Hx.
  - apply py_newnativefunc_store.
Qed.

Lemma immediate_call_invalid vm c out :
  immediate_call c = Some out -> load vm out = None -> run_call vm c = None.
Proof.
  intros Hc Hx. destruct c; simpl in Hc; try discriminate;
    injection Hc as ->; simpl;
    rewrite ?py_newint_store, ?py_newfloat_store, ?py_newbool_store,
      ?py_newnone_store, ?py_newnotimplemented_store, ?py_newellipsis_store,
      ?py_newnativefunc_store;
    unfold py_newnull, set_type, store; by rewrite Hx.
Qed.

Lemma stack_length_poke vm r c : length (stack (poke vm r c)) = length (stack vm).
Proof. destruct r; simpl; try done. by rewrite length_insert. Qed.

Lemma curr_exception_poke vm r c : curr_exception (poke vm r c) = curr_exception vm.
Proof. by destruct r. Qed.

Lemma dict_poke vm r c p o :
  heap vm !! p = Some o ->
  exists o', heap (poke vm r c) !! p = Some o' /\ ob_dict o' = ob_dict o.
Proof.
  intros Ho. destruct r; simpl; eauto.
  destruct (decide (p0 = p)) as [->|Hne].
  - rewrite list_lookup_alter_eq, Ho. simpl. eauto.
  - rewrite list_lookup_alter_ne by done. eauto.
Qed.


Lemma immediate_calls_poke cs : forall vm out x,
  Forall (fun c => immediate_call c = Some out) cs ->
  load vm out = Some x ->
  run_calls vm cs = Some vm \/ exists c', run_calls vm cs = Some (poke vm out c').
Proof.
  induction cs as [| c cs IH]; intros vm out x Hall Hx; [by left |].
  apply Forall_cons in Hall as [Hc Hall]. right. simpl.
  rewrite (immediate_call_store vm c out x Hc Hx).
  rewrite store_Some by eauto. simpl.
  set (c1 := immediate_cell c x).
  assert (H1 : load (poke vm out c1) out = Some c1) by (apply load_poke_eq; eauto).
  destruct (IH (poke vm out c1) out c1 Hall H1) as [E | [c' E]]; rewrite E.
  - eauto.
  - exists c'. by rewrite poke_poke.
Qed.

(** X2.  The last full constructor wins.  After any sequence of immediate
    constructors applied through the same valid reference, [py_newint] or
    [py_newfloat] through that reference leaves the state exactly as if
    it alone had been called: these two assign the type tag, the flag and
    all 64 bits of the payload, so nothing of what the earlier
    constructors wrote survives. *)
Theorem last_full_constructor_wins (vm : VM) (out : py_Ref)
    (cs : list api_call) (k : api_call) :
  is_Some (load vm out) ->
  Forall (fun c => immediate_call c = Some out) cs ->
  immediate_call k = Some out -> full_constructor k = true ->
  run_calls vm (cs ++ [k]) = run_call vm k /\ is_Some (run_call vm k).
Proof.
  intros [x Hx] Hall Hk Hfull.
  assert (Hind : forall a b, immediate_cell k a = immediate_cell k b).
  { intros a b. destruct k; simpl in Hfull; try discriminate; done. }
  assert (Hrun : forall vm1 y, load vm1 out = Some y ->
            run_calls vm1 [k] = store vm1 out (immediate_cell k x)).
  { intros vm1 y Hy. simpl. rewrite (immediate_call_store vm1 k out y Hk Hy).
    rewrite (Hind y x). by destruct (store vm1 out (immediate_cell k x)). }
  split.
  - assert (Happ : forall l vm0, run_calls vm0 (l ++ [k])
                     = run_calls vm0 l ≫= fun vm1 => run_calls vm1 [k]).
    { induction l as [| c l IH]; intros vm0; simpl.
      - by destruct (run_call vm0 k).
      - destruct (run_call vm0 c); simpl; [apply IH | done]. }
    rewrite Happ, (immediate_call_store vm k out x Hk Hx).
    destruct (immediate_calls_poke cs vm out x Hall Hx) as [E | [c' E]];
      rewrite E; simpl option_bind; cbn [mbind option_bind].
    + by rewrite (Hrun vm x Hx).
    + rewrite (Hrun (poke vm out c') c') by (apply load_poke_eq; eauto).
      rewrite !store_Some by (rewrite ?load_poke_eq; eauto).
      by rewrite poke_poke.
  - rewrite (immediate_call_store vm k out x Hk Hx). rewrite store_Some; eauto.
Qed.

(** X3.  [py_newnone], [py_newnotimplemented] and [py_newellipsis] assign the
    type tag and clear [is_ptr] but never touch the payload: the cell they
    leave carries the payload it had before, so a None made over a pointer
    cell still holds the pointer, and two None cells made over pointer
    cells to different objects are different cells. *)
Theorem payloadless_constructors_keep_payload (vm : VM) (out : py_Ref)
    (x : py_TValue) :
  load vm out = Some x ->
  (exists vm', py_newnone vm out = Some vm' /\
     load vm' out = Some (mk_TValue tp_none_type false (payload x))) /\
  (exists vm', py_newnotimplemented vm out = Some vm' /\
     load vm' out = Some (mk_TValue tp_not_implemented_type false (payload x))) /\
  (exists vm', py_newellipsis vm out = Some vm' /\
     load vm' out = Some (mk_TValue tp_ellipsis false (payload x))) /\
  (forall vm2 out2 y v v2 p q,
     load vm2 out2 = Some y ->
     payload x = _obj p -> payload y = _obj q -> p <> q ->
     py_newnone vm out = Some v -> py_newnone vm2 out2 = Some v2 ->
     load v out <> load v2 out2).
Proof.
  intros Hx. assert (Hv : is_Some (load vm out)) by eauto.
  assert (K : forall c, immediate_call c = Some out ->
            exists vm', run_call vm c = Some vm' /\
                        load vm' out = Some (immediate_cell c x)).
  { intros c Hc. exists (poke vm out (immediate_cell c x)).
    rewrite (immediate_call_store vm c out x Hc Hx).
    split; [by apply store_Some | by apply load_poke_eq]. }
  split; [exact (K (call_newnone out) eq_refl) |].
  split; [exact (K (call_newnotimplemented out) eq_refl) |].
  split; [exact (K (call_newellipsis out) eq_refl) |].
  intros vm2 out2 y v v2 p q Hy Hp Hq Hne E1 E2.
  rewrite py_newnone_store, Hx in E1. rewrite py_newnone_store, Hy in E2.
  simpl in E1, E2.
  rewrite (load_store_eq _ _ _ _ E1), (load_store_eq _ _ _ _ E2).
  rewrite Hp, Hq. intros [= Heq]. by apply Hne.
Qed.

(** ** The heap constructors *)

Lemma load_frame_store vm r c vm' r' :
  store vm r c = Some vm' -> r' <> r -> load vm' r' = load vm r'.
Proof. intros H Hne. eapply load_store_ne; [exact H | congruence]. Qed.

Lemma heap_length_gcnew vm t slots udsize :
  length (heap (pk_ManagedHeap__gcnew vm t slots udsize).1) = S (length (heap vm)).
Proof. simpl. rewrite length_app. simpl. lia. Qed.

Lemma py_newobject_fresh vm out t slots udsize :
  is_Some (load vm out) ->
  allocates_fresh vm out t (py_newobject vm out t slots udsize).
Proof.
  intros [c Hc].
  destruct (heap_gcnew vm t slots udsize) as (_ & o & Ho & Ht & _).
  simpl fst in Ho. simpl snd in Ho.
  set (vm0 := (pk_ManagedHeap__gcnew vm t slots udsize).1) in *.
  set (cell := mk_TValue t true (_obj (length (heap vm)))).
  assert (L0 : load vm0 out = Some c) by (by apply load_gcnew).
  assert (E : py_newobject vm out t slots udsize = Some (poke vm0 out cell)).
  { rewrite py_newobject_store. apply store_Some. eauto. }
  destruct (heap_frame_poke vm0 out cell _ o Ho) as (o' & Ho' & Ht' & _).
  exists (poke vm0 out cell), o'.
  split; [done |].
  split; [rewrite heap_length_poke; apply heap_length_gcnew |].
  split; [by apply lookup_ge_None_2 |].
  split; [done |]. split; [congruence |].
  split; [apply load_poke_eq; eauto |].
  split.
  { intros r' Hne [y Hy]. rewrite load_poke_ne by eauto.
    rewrite Hy. by apply load_gcnew. }
  split; [by eapply heap_frame_py_newobject | by eapply names_py_newobject].
Qed.

Lemma py_newbytes_frame vm out data size vm' :
  py_newbytes vm out data size = Some vm' ->
  length (heap vm') = S (length (heap vm)) /\
  forall r', r' <> out -> is_Some (load vm r') -> load vm' r' = load vm r'.
Proof.
  unfold py_newbytes. intros H.
  pose proof (heap_length_gcnew vm tp_bytes 0 (to_int (sizeof_int + size))) as Hlen.
  pose proof (fun r y => load_gcnew vm tp_bytes 0 (to_int (sizeof_int + size)) r y) as Hload.
  destruct (pk_ManagedHeap__gcnew vm tp_bytes 0 (to_int (sizeof_int + size))) as [vm0 p].
  simpl in Hlen, Hload. inv_bind H. inv_bind H. inv_bind H.
  rewrite write_type_ptr_payload in H. split.
  - rewrite (heap_length_store _ _ _ _ H), (heap_length_ud_write _ _ _ _ _ E1),
      (heap_length_ud_write _ _ _ _ _ E). done.
  - intros r' Hne [y Hy]. rewrite (load_frame_store _ _ _ _ _ H Hne).
    rewrite (load_ud_write _ _ _ _ _ r' E1), (load_ud_write _ _ _ _ _ r' E).
    rewrite Hy. by apply Hload.
Qed.

Lemma py_newstrn_frame vm out data size vm' :
  py_newstrn vm out data size = Some vm' ->
  length (heap vm') = S (length (heap vm)) /\
  forall r', r' <> out -> is_Some (load vm r') -> load vm' r' = load vm r'.
Proof.
  unfold py_newstrn. intros H.
  set (n := to_int (sizeof_c11_string + size + 1)) in *.
  pose proof (heap_length_gcnew vm tp_str 0 n) as Hlen.
  pose proof (fun r y => load_gcnew vm tp_str 0 n r y) as Hload.
  destruct (pk_ManagedHeap__gcnew vm tp_str 0 n) as [vm0 p].
  simpl in Hlen, Hload. inv_bind H.
  rewrite write_type_ptr_payload in H.
  unfold c11_string__ctor2 in E. inv_bind E. inv_bind E. inv_bind E.
  split.
  - rewrite (heap_length_store _ _ _ _ H), (heap_length_ud_write _ _ _ _ _ E),
      (heap_length_ud_write _ _ _ _ _ E2), (heap_length_ud_write _ _ _ _ _ E1).
    done.
  - intros r' Hne [y Hy]. rewrite (load_frame_store _ _ _ _ _ H Hne).
    rewrite (load_ud_write _ _ _ _ _ r' E), (load_ud_write _ _ _ _ _ r' E2),
      (load_ud_write _ _ _ _ _ r' E1).
    rewrite Hy. by apply Hload.
Qed.

Lemma py_setslot_inv vm self i val vm' :
  py_setslot vm self i val = Some vm' ->
  exists c v p,
    load vm self = Some c /\ is_ptr c = true /\ payload c = _obj p /\
    load vm val = Some v /\ 0 <= i /\
    store vm (ref_slot p (Z.to_nat i)) v = Some vm'.
Proof.
  unfold py_setslot. intros H. inv_bind H. inv_bind H.
  destruct (is_ptr x) eqn:Hp; [| discriminate].
  destruct (payload x) eqn:Hpl; try discriminate.
  case_decide; [| discriminate]. exists x, x0, p. eauto 10.
Qed.

(** A store into a slot of the object [*out] points at, seen from a
    reference that lived before that object did. *)
Lemma py_setslot_fresh_frame vm out q i val vm' r' :
  load vm out = Some (mk_TValue tp_slice true (_obj q)) ->
  py_setslot vm out i val = Some vm' ->
  (forall j, r' <> ref_slot q j) ->
  load vm' r' = load vm r' /\ length (heap vm') = length (heap vm).
Proof.
  intros Hout H Hr.
  destruct (py_setslot_inv _ _ _ _ _ H) as (c & v & p & Hc & _ & Hp & _ & _ & Hs).
  rewrite Hout in Hc. injection Hc as <-. simpl in Hp. injection Hp as <-.
  split; [| by eapply heap_length_store].
  eapply load_frame_store; [exact Hs | apply Hr].
Qed.

Lemma py_newslice_fresh vm out start stop step :
  is_Some (load vm out) -> is_Some (load vm start) ->
  is_Some (load vm stop) -> is_Some (load vm step) ->
  allocates_fresh vm out tp_slice (py_newslice vm out start stop step).
Proof.
  intros Hout Hstart Hstop Hstep.
  set (q := length (heap vm)).
  destruct (py_newobject_fresh vm out tp_slice 3 0 Hout)
    as (vm1 & o1 & E1 & Hl1 & Hnone & Ho1 & Ht1 & L1 & F1 & _ & N1).
  fold q in Hl1, Hnone, Ho1, L1.
  assert (Fr : forall r, is_Some (load vm r) -> forall j, r <> ref_slot q j).
  { intros r Hr j. by apply valid_not_fresh. }
  assert (V1 : forall r, is_Some (load vm r) -> is_Some (load vm1 r)).
  { intros r Hr. destruct (decide (r = out)) as [->|Hne]; [eauto |].
    rewrite F1 by done. done. }
  assert (Hc1 : slot_cells o1 = replicate 3 nil_cell).
  { rewrite py_newobject_store in E1. apply store_inv in E1 as [_ ->].
    rewrite heap_poke_other in Ho1 by (by apply Fr).
    simpl in Ho1. unfold q in Ho1. rewrite list_lookup_middle in Ho1 by done.
    by injection Ho1 as <-. }
  destruct (V1 start Hstart) as [a La]. destruct (V1 stop Hstop) as [b Lb].
  destruct (V1 step Hstep) as [c Lc].
  destruct (py_setslot_step vm1 out 0 start tp_slice q a o1 L1 La Ho1)
    as (vm2 & E2 & H2 & K2); [lia | rewrite Hc1; simpl; lia |].
  set (o2 := set_slot_cells o1 _) in *.
  destruct (py_setslot_step vm2 out 1 stop tp_slice q b o2)
    as (vm3 & E3 & H3 & K3);
    [ rewrite K2 by (by apply Fr); done | rewrite K2 by (by apply Fr); done | done
    | lia | unfold o2; simpl; rewrite length_insert, Hc1; simpl; lia |].
  set (o3 := set_slot_cells o2 _) in *.
  destruct (py_setslot_step vm3 out 2 step tp_slice q c o3)
    as (vm4 & E4 & H4 & K4);
    [ rewrite K3, K2 by (by apply Fr); done
    | rewrite K3, K2 by (by apply Fr); done | done | lia
    | unfold o3, o2; simpl; rewrite !length_insert, Hc1; simpl; lia |].
  assert (E : py_newslice vm out start stop step = Some vm4).
  { unfold py_newslice. rewrite E1. simpl. rewrite E2. simpl. by rewrite E3. }
  assert (L2 : load vm2 out = Some (mk_TValue tp_slice true (_obj q)))
    by (rewrite K2 by (by apply Fr); done).
  assert (L3 : load vm3 out = Some (mk_TValue tp_slice true (_obj q)))
    by (rewrite K3 by (by apply Fr); done).
  eexists vm4, _. split; [exact E |].
  split.
  { destruct (py_setslot_fresh_frame vm1 out q 0 start vm2 out L1 E2 (Fr _ Hout)) as [_ A2].
    destruct (py_setslot_fresh_frame vm2 out q 1 stop vm3 out L2 E3 (Fr _ Hout)) as [_ A3].
    destruct (py_setslot_fresh_frame vm3 out q 2 step vm4 out L3 E4 (Fr _ Hout)) as [_ A4].
    rewrite A4, A3, A2. exact Hl1. }
  split; [done |]. split; [exact H4 |]. split; [done |].
  split; [rewrite K4, K3, K2 by (by apply Fr); done |].
  split.
  { intros r' Hne Hr'. rewrite K4, K3, K2 by (by apply Fr). by apply F1. }
  split; [by eapply heap_frame_py_newslice | by eapply names_py_newslice].
Qed.


(** ** The cell invariant across calls *)

Lemma types_kept_of_frame vm vm' : heap_frame vm vm' -> types_kept vm vm'.
Proof. intros H p o Ho. destruct (H p o Ho) as (o' & ? & ? & _). eauto. Qed.

Lemma cell_ok_mono vm vm' c : types_kept vm vm' -> cell_ok vm c -> cell_ok vm' c.
Proof.
  intros K H Hp. destruct (H Hp) as (p & o & Hpl & Ho & Ht).
  destruct (K p o Ho) as (o' & Ho' & Ht'). exists p, o'.
  split; [done |]. split; [done | congruence].
Qed.

Lemma cells_ok_same_loads vm vm' :
  (forall r, load vm' r = load vm r) -> types_kept vm vm' ->
  cells_ok vm -> cells_ok vm'.
Proof.
  intros L K H r c Hc. rewrite L in Hc. eapply cell_ok_mono; [exact K | eauto].
Qed.

Lemma cells_ok_store vm r c vm' :
  cells_ok vm -> cell_ok vm c -> store vm r c = Some vm' -> cells_ok vm'.
Proof.
  intros H Hc Hs r' c' Hl.
  pose proof (types_kept_of_frame _ _ (heap_frame_store _ _ _ _ Hs)) as K.
  destruct (decide (r' = r)) as [->|Hne].
  - rewrite (load_store_eq _ _ _ _ Hs) in Hl. injection Hl as <-.
    by eapply cell_ok_mono.
  - rewrite (load_frame_store _ _ _ _ _ Hs Hne) in Hl.
    eapply cell_ok_mono; [exact K | eauto].
Qed.

Lemma cell_ok_not_ptr vm t u : cell_ok vm (mk_TValue t false u).
Proof. intros H. discriminate H. Qed.

Lemma cells_ok_gcnew vm t slots udsize :
  cells_ok vm -> cells_ok (pk_ManagedHeap__gcnew vm t slots udsize).1.
Proof.
  intros H r c Hc.
  pose proof (types_kept_of_frame _ _ (heap_frame_gcnew vm t slots udsize)) as K.
  destruct r as [i | i | i | p i | t0 | t0 n |];
    [ eapply cell_ok_mono; [exact K | exact (H (ref_reg i) c Hc)]
    | eapply cell_ok_mono; [exact K | exact (H (ref_stack i) c Hc)]
    | eapply cell_ok_mono; [exact K | exact (H (ref_local i) c Hc)]
    |
    | eapply cell_ok_mono; [exact K | exact (H (ref_tpobject t0) c Hc)]
    | eapply cell_ok_mono; [exact K | exact (H (ref_magic t0 n) c Hc)]
    | eapply cell_ok_mono; [exact K | exact (H ref_retval c Hc)] ].
  simpl in Hc. inv_bind Hc.
  apply lookup_app_Some in E as [E | [_ E]].
  - eapply cell_ok_mono; [exact K |]. apply (H (ref_slot p i)). simpl. by rewrite E.
  - apply list_lookup_singleton_Some in E as [_ <-]. simpl in Hc.
    apply lookup_replicate in Hc as [-> _]. apply cell_ok_not_ptr.
Qed.

Lemma types_kept_ud_write vm p off bs vm' :
  ud_write vm p off bs = Some vm' -> types_kept vm vm'.
Proof.
  unfold ud_write. intros H. inv_bind H. inv_bind H. injection H as <-.
  intros q o Ho. simpl. destruct (decide (p = q)) as [->|Hne].
  - rewrite list_lookup_insert_eq by (by eapply lookup_lt_Some).
    assert (o = x) as -> by congruence. eauto.
  - rewrite list_lookup_insert_ne by done. eauto.
Qed.

Lemma cells_ok_ud_write vm p off bs vm' :
  ud_write vm p off bs = Some vm' -> cells_ok vm -> cells_ok vm'.
Proof.
  intros H. apply cells_ok_same_loads.
  - intros r. by eapply load_ud_write.
  - by eapply types_kept_ud_write.
Qed.

Lemma ob_type_ud_write vm p off bs vm' q o :
  ud_write vm p off bs = Some vm' -> heap vm !! q = Some o ->
  exists o', heap vm' !! q = Some o' /\ ob_type o' = ob_type o.
Proof. intros H. by apply (types_kept_ud_write _ _ _ _ _ H). Qed.

Lemma cells_ok_py_newobject vm out t slots udsize vm' :
  cells_ok vm -> py_newobject vm out t slots udsize = Some vm' -> cells_ok vm'.
Proof.
  rewrite py_newobject_store. intros H Hs.
  eapply cells_ok_store; [by apply cells_ok_gcnew | | exact Hs].
  intros _. destruct (heap_gcnew vm t slots udsize) as (_ & o & Ho & Ht & _).
  simpl in Ho. exists (length (heap vm)), o. done.
Qed.

Lemma cells_ok_py_newbytes vm out data size vm' :
  cells_ok vm -> py_newbytes vm out data size = Some vm' -> cells_ok vm'.
Proof.
  unfold py_newbytes. intros H Hs.
  pose proof (cells_ok_gcnew vm tp_bytes 0 (to_int (sizeof_int + size)) H) as H0.
  destruct (heap_gcnew vm tp_bytes 0 (to_int (sizeof_int + size))) as (Hp & o & Ho & Ht & _).
  destruct (pk_ManagedHeap__gcnew vm tp_bytes 0 (to_int (sizeof_int + size))) as [vm0 p].
  simpl in H0, Hp, Ho. subst p. inv_bind Hs. inv_bind Hs. inv_bind Hs.
  rewrite write_type_ptr_payload in Hs.
  destruct (ob_type_ud_write _ _ _ _ _ _ _ E Ho) as (o1 & Ho1 & Ht1).
  destruct (ob_type_ud_write _ _ _ _ _ _ _ E1 Ho1) as (o2 & Ho2 & Ht2).
  eapply cells_ok_store; [| | exact Hs].
  - eapply cells_ok_ud_write; [exact E1 |]. by eapply cells_ok_ud_write.
  - intros _. exists (length (heap vm)), o2. split; [done |]. split; [done |].
    simpl. congruence.
Qed.

Lemma cells_ok_py_newstrn vm out data size vm' :
  cells_ok vm -> py_newstrn vm out data size = Some vm' -> cells_ok vm'.
Proof.
  unfold py_newstrn. intros H Hs.
  set (n := to_int (sizeof_c11_string + size + 1)) in *.
  pose proof (cells_ok_gcnew vm tp_str 0 n H) as H0.
  destruct (heap_gcnew vm tp_str 0 n) as (Hp & o & Ho & Ht & _).
  destruct (pk_ManagedHeap__gcnew vm tp_str 0 n) as [vm0 p].
  simpl in H0, Hp, Ho. subst p. inv_bind Hs.
  rewrite write_type_ptr_payload in Hs.
  unfold c11_string__ctor2 in E. inv_bind E. inv_bind E. inv_bind E.
  destruct (ob_type_ud_write _ _ _ _ _ _ _ E1 Ho) as (o1 & Ho1 & Ht1).
  destruct (ob_type_ud_write _ _ _ _ _ _ _ E2 Ho1) as (o2 & Ho2 & Ht2).
  destruct (ob_type_ud_write _ _ _ _ _ _ _ E Ho2) as (o3 & Ho3 & Ht3).
  eapply cells_ok_store; [| | exact Hs].
  - eapply cells_ok_ud_write; [exact E |].
    eapply cells_ok_ud_write; [exact E2 |]. by eapply cells_ok_ud_write.
  - intros _. exists (length (heap vm)), o3. split; [done |]. split; [done |].
    simpl. congruence.
Qed.

Lemma cells_ok_py_setslot vm self i val vm' :
  cells_ok vm -> py_setslot vm self i val = Some vm' -> cells_ok vm'.
Proof.
  intros H Hs.
  destruct (py_setslot_inv _ _ _ _ _ Hs) as (c & v & p & _ & _ & _ & Hv & _ & Hst).
  eapply cells_ok_store; [exact H | by eapply H | exact Hst].
Qed.

Lemma load_py_setdict vm self name val vm' r :
  py_setdict vm self name val = Some vm' -> load vm' r = load vm r.
Proof.
  unfold py_setdict. intros H. inv_bind H. inv_bind H.
  destruct (is_ptr x); [| discriminate]. destruct (payload x); try discriminate.
  inv_bind H. inv_bind H. injection H as <-.
  destruct r; simpl; try done.
  destruct (decide (p = p0)) as [->|Hne].
  - rewrite list_lookup_insert_eq by (by eapply lookup_lt_Some). by rewrite E1.
  - by rewrite list_lookup_insert_ne.
Qed.

Lemma load_py_name vm s n vm' r : py_name vm s = Some (n, vm') -> load vm' r = load vm r.
Proof. intros H. apply py_name_only_names in H. rewrite H. by destruct r. Qed.

Lemma load_push_local vm c r :
  is_Some (load vm r) -> load (push_local vm c) r = load vm r.
Proof.
  intros [y Hy]. destruct r; simpl in *; try done.
  by rewrite (lookup_app_l_Some _ _ _ _ Hy).
Qed.

Lemma locals_py_setdict vm self name val vm' :
  py_setdict vm self name val = Some vm' -> locals vm' = locals vm.
Proof.
  unfold py_setdict. intros H. inv_bind H. inv_bind H.
  destruct (is_ptr x); [| discriminate]. destruct (payload x); try discriminate.
  inv_bind H. inv_bind H. by injection H as <-.
Qed.

Lemma locals_py_name vm s n vm' : py_name vm s = Some (n, vm') -> locals vm' = locals vm.
Proof. intros H. apply py_name_only_names in H. by rewrite H. Qed.

(** Binding changes no cell a reference can address, and the local [tmp]
    is gone when it returns. *)
Lemma load_py_bindnativefunc vm obj name f tmp0 vm' r :
  py_bindnativefunc vm obj name f tmp0 = Some vm' ->
  load vm' r = load vm r /\ locals vm' = locals vm.
Proof.
  unfold py_bindnativefunc. rewrite newnativefunc_local. simpl.
  intros H. inv_bind H. destruct x as [n vm1]. inv_bind H. injection H as <-.
  assert (Hloc : locals x = locals vm ++ [nativefunc_cell f]).
  { rewrite (locals_py_setdict _ _ _ _ _ E0), (locals_py_name _ _ _ _ E). done. }
  assert (Hpop : locals (pop_local x) = locals vm).
  { unfold pop_local. simpl. rewrite Hloc, length_app. simpl.
    by rewrite Nat.add_sub, take_app_length. }
  split; [| done].
  assert (Hx : forall r', load x r' = load (push_local vm (nativefunc_cell f)) r').
  { intros r'. rewrite (load_py_setdict _ _ _ _ _ r' E0).
    by rewrite (load_py_name _ _ _ _ r' E). }
  destruct r as [i | i | i | p i | t0 | t0 k |].
  - exact (Hx (ref_reg i)).
  - exact (Hx (ref_stack i)).
  - change (locals (pop_local x) !! i = locals vm !! i). by rewrite Hpop.
  - exact (Hx (ref_slot p i)).
  - exact (Hx (ref_tpobject t0)).
  - exact (Hx (ref_magic t0 k)).
  - exact (Hx ref_retval).
Qed.

Lemma cells_ok_py_bindnativefunc vm obj name f tmp0 vm' :
  cells_ok vm -> py_bindnativefunc vm obj name f tmp0 = Some vm' -> cells_ok vm'.
Proof.
  intros H Hb. eapply cells_ok_same_loads; [| | exact H].
  - intros r. by destruct (load_py_bindnativefunc _ _ _ _ _ _ r Hb).
  - apply types_kept_of_frame. by eapply heap_frame_py_bindnativefunc.
Qed.

Lemma cells_ok_py_push vm src vm' :
  cells_ok vm -> py_push vm src = Some vm' -> cells_ok vm'.
Proof.
  unfold py_push. intros H Hp. inv_bind Hp. case_decide; injection Hp as <-.
  - unfold py_exception.
    pose proof (cells_ok_gcnew vm tp_StackOverflowError 2 0 H) as Hg.
    eapply cells_ok_same_loads; [| | exact Hg].
    + intros r. by destruct r.
    + intros p o Ho. eauto.
  - intros r c Hc.
    assert (K : types_kept vm (set_stack vm (stack vm ++ [x])))
      by (intros p o Ho; eauto).
    destruct r as [i | i | i | p i | t0 | t0 k |];
      [ exact (cell_ok_mono _ _ _ K (H (ref_reg i) c Hc))
      |
      | exact (cell_ok_mono _ _ _ K (H (ref_local i) c Hc))
      | exact (cell_ok_mono _ _ _ K (H (ref_slot p i) c Hc))
      | exact (cell_ok_mono _ _ _ K (H (ref_tpobject t0) c Hc))
      | exact (cell_ok_mono _ _ _ K (H (ref_magic t0 k) c Hc))
      | exact (cell_ok_mono _ _ _ K (H ref_retval c Hc)) ].
    simpl in Hc. apply lookup_app_Some in Hc as [Hc | [_ Hc]].
    + exact (cell_ok_mono _ _ _ K (H (ref_stack i) c Hc)).
    + apply list_lookup_singleton_Some in Hc as [_ <-].
      exact (cell_ok_mono _ _ _ K (H src x E)).
Qed.

Lemma cells_ok_run_call vm c vm' :
  is_newnull c = false -> cells_ok vm -> run_call vm c = Some vm' -> cells_ok vm'.
Proof.
  intros Hn H Hr.
  destruct (immediate_call c) as [out|] eqn:Hi.
  - destruct (load vm out) as [x|] eqn:Hx.
    + rewrite (immediate_call_store vm c out x Hi Hx) in Hr.
      eapply cells_ok_store; [exact H | | exact Hr].
      destruct c; simpl in Hi, Hn; try discriminate; apply cell_ok_not_ptr.
    + by rewrite (immediate_call_invalid vm c out Hi Hx) in Hr.
  - destruct c; simpl in Hi; try discriminate; simpl in Hr.
    + unfold py_newstr in Hr. inv_bind Hr. by eapply cells_ok_py_newstrn.
    + by eapply cells_ok_py_newstrn.
    + by eapply cells_ok_py_newbytes.
    + by injection Hr as <-.
    + by injection Hr as <-.
    + by eapply cells_ok_py_bindnativefunc.
    + by eapply cells_ok_py_bindnativefunc.
    + by eapply cells_ok_py_bindnativefunc.
    + unfold py_newslice in Hr. inv_bind Hr. inv_bind Hr. inv_bind Hr.
      eapply cells_ok_py_setslot; [| exact Hr].
      eapply cells_ok_py_setslot; [| exact E1].
      eapply cells_ok_py_setslot; [| exact E0].
      by eapply cells_ok_py_newobject.
    + by eapply cells_ok_py_newobject.
    + by eapply cells_ok_py_setslot.
    + eapply cells_ok_same_loads; [| | exact H].
      * intros r. by eapply load_py_setdict.
      * apply types_kept_of_frame. by eapply heap_frame_py_setdict.
    + destruct (py_name vm s) as [[n vm1]|] eqn:E; simpl in Hr; [| discriminate].
      injection Hr as <-. eapply cells_ok_same_loads; [| | exact H].
      * intros r. by eapply load_py_name.
      * intros p o Ho. rewrite (heap_py_name _ _ _ _ E). eauto.
    + by eapply cells_ok_py_push.
Qed.

(** X5.  The cell invariant is kept by every sequence of calls that does not
    use [py_newnull]: if every cell that a reference can address is either
    not a pointer cell or points at a heap object whose header records the
    cell's type tag, the same is true after the calls. *)
Theorem cell_invariant_preserved (cs : list api_call) (vm vm' : VM) :
  cells_ok vm -> Forall (fun c => is_newnull c = false) cs ->
  run_calls vm cs = Some vm' -> cells_ok vm'.
Proof.
  revert vm. induction cs as [| c cs IH]; intros vm H Hall Hr; simpl in Hr.
  - by injection Hr as <-.
  - apply Forall_cons in Hall as [Hc Hall]. inv_bind Hr.
    eapply IH; [| exact Hall | exact Hr]. by eapply cells_ok_run_call.
Qed.

(** X6.  [py_newnull] is the exception: applied to a pointer cell that
    satisfies the invariant and whose object has a valid (non-zero) type,
    it leaves a cell that violates it: a pointer cell tagged [0] to an
    object whose header records another type. *)
Theorem py_newnull_breaks_cell_invariant (vm : VM) (out : py_Ref)
    (c : py_TValue) (p : addr) (o : PyObject) :
  load vm out = Some c -> is_ptr c = true -> payload c = _obj p ->
  heap vm !! p = Some o -> ob_type o = type c -> ob_type o <> 0 ->
  cell_ok vm c /\
  exists vm' c', py_newnull vm out = Some vm' /\ load vm' out = Some c' /\
                 ~ cell_ok vm' c' /\ ~ cells_ok vm'.
Proof.
  intros Hc Hp Hpl Ho Ht Hnz. split; [intros _; eauto |].
  unfold py_newnull, set_type. rewrite Hc. simpl.
  set (cell := mk_TValue 0 (is_ptr c) (payload c)).
  assert (Hs : store vm out cell = Some (poke vm out cell))
    by (apply store_Some; eauto).
  assert (Hl : load (poke vm out cell) out = Some cell)
    by (apply load_poke_eq; eauto).
  destruct (heap_frame_poke vm out cell p o Ho) as (o' & Ho' & Ht' & _).
  assert (Hbad : ~ cell_ok (poke vm out cell) cell).
  { intros Hok. destruct (Hok Hp) as (q & o2 & Hq & Ho2 & Ht2).
    simpl in Hq, Ht2. rewrite Hpl in Hq. injection Hq as <-.
    rewrite Ho' in Ho2. injection Ho2 as <-. congruence. }
  exists (poke vm out cell), cell. split; [done |]. split; [done |].
  split; [done |]. intros Hall. apply Hbad. by apply (Hall out).
Qed.

(** ** [py_newstr] and the bytes a buffer constructor reads *)

Lemma strlen_first_zero s rest :
  Forall (fun b => b <> 0) s -> strlen (s ++ 0 :: rest) = Some (Z.of_nat (length s)).
Proof.
  induction 1 as [| b s Hb Hs IH]; simpl; [done |].
  rewrite decide_False by done. rewrite IH. simpl. f_equal. lia.
Qed.

Lemma strlen_no_zero s : Forall (fun b => b <> 0) s -> strlen s = None.
Proof.
  induction 1 as [| b s Hb Hs IH]; simpl; [done |].
  rewrite decide_False by done. by rewrite IH.
Qed.

Lemma read_bytes_prefix data data' n :
  take (Z.to_nat n) data' = take (Z.to_nat n) data ->
  n <= Z.of_nat (length data) -> n <= Z.of_nat (length data') ->
  read_bytes data' n = read_bytes data n.
Proof.
  intros Ht H1 H2. unfold read_bytes.
  repeat case_decide; try lia; by rewrite ?Ht.
Qed.

Lemma py_newstrn_reads vm out data data' size :
  read_bytes data' size = read_bytes data size ->
  py_newstrn vm out data' size = py_newstrn vm out data size.
Proof. intros H. unfold py_newstrn, c11_string__ctor2. simpl. by rewrite H. Qed.

Lemma py_newbytes_reads vm out data data' size :
  read_bytes data' size = read_bytes data size ->
  py_newbytes vm out data' size = py_newbytes vm out data size.
Proof. intros H. unfold py_newbytes. simpl. by rewrite H. Qed.

(** X7.  [py_newstr] takes the length of its argument from the first zero
    byte: on an array that holds the non-zero bytes [s], a zero and then
    anything else, it does what [py_newstrn] does on [s] and its length,
    whatever follows the zero; on an array with no zero byte it is
    undefined. *)
Theorem py_newstr_reads_to_first_zero (vm : VM) (out : py_Ref)
    (s rest : list Z) :
  Forall (fun b => b <> 0) s -> Z.of_nat (length s) <= INT_MAX ->
  py_newstr vm out (s ++ 0 :: rest) = py_newstrn vm out s (Z.of_nat (length s)) /\
  py_newstr vm out s = None.
Proof.
  intros Hs Hlen. split.
  - unfold py_newstr. rewrite (strlen_first_zero s rest Hs). simpl.
    rewrite to_int_small by (unfold INT_MAX in *; lia).
    apply py_newstrn_reads. apply read_bytes_prefix.
    + rewrite Nat2Z.id. by rewrite take_app_length, firstn_all.
    + lia.
    + rewrite length_app. lia.
  - unfold py_newstr. by rewrite (strlen_no_zero s Hs).
Qed.

(** X8.  [py_newbytes] copies exactly the first [size] bytes of the array it
    is given.  For [0 <= size <= INT_MAX - sizeof(int)] and an array of at
    least [size] bytes, the new object's user data is the 4-byte length
    followed by that prefix, the bytes of the array beyond [size] have no
    influence on the resulting state, and [size = 0] gives an object that
    holds the four length bytes and nothing else.  For a larger [size]
    (up to [INT_MAX]) the user-data size handed to the allocator wraps to
    a negative [int], and the call is undefined whatever the array. *)
Theorem py_newbytes_copies_prefix (vm : VM) (out : py_Ref) (data : list Z)
    (size : Z) :
  (is_Some (load vm out) -> 0 <= size <= Z.of_nat (length data) ->
   sizeof_int + size <= INT_MAX ->
   exists vm',
     py_newbytes vm out data size = Some vm' /\
     ud_bytes vm' (length (heap vm))
       = Some (int_bytes size ++ take (Z.to_nat size) data) /\
     (forall data', take (Z.to_nat size) data' = take (Z.to_nat size) data ->
        size <= Z.of_nat (length data') ->
        py_newbytes vm out data' size = Some vm') /\
     (size = 0 -> ud_bytes vm' (length (heap vm)) = Some [0; 0; 0; 0])) /\
  (INT_MAX < sizeof_int + size -> size <= INT_MAX ->
   py_newbytes vm out data size = None).
Proof.
  split.
  - intros Hout Hsz Hmax.
    destruct (py_newbytes_spec vm out data size Hout Hsz Hmax)
      as (vm' & o & E & _ & Ho & _ & _ & Hud).
    pose proof (ud_bytes_written vm' _ o _ Ho Hud) as U.
    exists vm'. split; [done |]. split; [done |]. split.
    + intros data' Ht Hlen. rewrite <- E. apply py_newbytes_reads.
      apply read_bytes_prefix; [done | lia | done].
    + intros ->. by rewrite U.
  - intros Hlo Hhi. unfold py_newbytes, pk_ManagedHeap__gcnew.
    assert (Hneg : to_int (sizeof_int + size) < 0).
    { unfold to_int, sizeof_int, INT_MAX in *.
      change (2 ^ 31) with 2147483648. change (2 ^ 32) with 4294967296.
      Z.div_mod_to_equations. lia. }
    assert (Hz : Z.to_nat (to_int (sizeof_int + size)) = 0%nat) by lia.
    rewrite Hz. unfold ud_write. simpl.
    by rewrite list_lookup_middle by done.
Qed.

(** ** Binding and looking up *)

Lemma dict_of_Some vm self p o d :
  dict_of vm self = Some (p, o, d) ->
  exists c, load vm self = Some c /\ is_ptr c = true /\ payload c = _obj p /\
            heap vm !! p = Some o /\ ob_dict o = Some d.
Proof.
  unfold dict_of. intros H. inv_bind H.
  destruct (is_ptr x) eqn:Hp; [| discriminate].
  destruct (payload x) eqn:Hpl; try discriminate.
  inv_bind H. inv_bind H. injection H as <- <- <-. eauto 10.
Qed.

Lemma dict_of_intro vm self c p o d :
  load vm self = Some c -> is_ptr c = true -> payload c = _obj p ->
  heap vm !! p = Some o -> ob_dict o = Some d ->
  dict_of vm self = Some (p, o, d).
Proof.
  intros Hc Hp Hpl Ho Hd. unfold dict_of. rewrite Hc. simpl.
  rewrite Hp, Hpl, Ho. simpl. by rewrite Hd.
Qed.

Lemma py_setdict_Some vm self name val p o d v :
  dict_of vm self = Some (p, o, d) -> load vm val = Some v ->
  py_setdict vm self name val
  = Some (set_heap vm (<[p := set_ob_dict o (Some (<[name := v]> d))]> (heap vm))).
Proof.
  intros (c & Hc & Hp & Hpl & Ho & Hd)%dict_of_Some Hv.
  unfold py_setdict. rewrite Hc, Hv. simpl. rewrite Hp, Hpl, Ho. simpl.
  by rewrite Hd.
Qed.

Lemma py_name_Some vm s :
  s ∈ names vm \/ Z.of_nat (length (names vm)) < 65535 ->
  exists n vm1, py_name vm s = Some (n, vm1) /\ py_name2str vm1 n = Some s.
Proof.
  intros Hs. unfold py_name.
  destruct (index_of s (names vm)) as [i|] eqn:Ei.
  - eexists _, _. split; [done |]. apply py_name2str_Some. split; [lia |].
    replace (Z.to_nat (Z.of_nat (S i) - 1)) with i by lia. by apply index_of_Some.
  - destruct Hs as [Hin | Hlt]; [by apply index_of_None in Ei |].
    rewrite decide_True by done. eexists _, _. split; [done |].
    apply py_name2str_Some. split; [lia |]. simpl.
    replace (Z.to_nat (Z.of_nat (S (length (names vm))) - 1))
      with (length (names vm)) by lia.
    by apply list_lookup_middle.
Qed.

(** Binding on a valid reference to an object with an attribute store, in
    closed form. *)
Lemma py_bindnativefunc_run vm obj name f tmp0 p o d n vm1 :
  dict_of vm obj = Some (p, o, d) -> py_name vm name = Some (n, vm1) ->
  py_bindnativefunc vm obj name f tmp0
  = Some (set_heap vm1
            (<[p := set_ob_dict o (Some (<[n := nativefunc_cell f]> d))]> (heap vm1))).
Proof.
  intros Hd Hn. unfold py_bindnativefunc.
  rewrite newnativefunc_local. simpl. rewrite py_name_push_local, Hn. simpl.
  pose proof (py_name_only_names _ _ _ _ Hn) as E1.
  set (cell := nativefunc_cell f).
  assert (Hd1 : dict_of (push_local vm1 cell) obj = Some (p, o, d)).
  { destruct (dict_of_Some _ _ _ _ _ Hd) as (c & Hc & Hp & Hpl & Ho & Hdd).
    eapply dict_of_intro; try done.
    - rewrite load_push_local; rewrite (load_py_name _ _ _ _ _ Hn); eauto.
    - simpl. by rewrite (heap_py_name _ _ _ _ Hn). }
  assert (Hv : load (push_local vm1 cell) (ref_local (length (locals vm))) = Some cell).
  { simpl. rewrite (locals_py_name _ _ _ _ Hn). by apply list_lookup_middle. }
  rewrite (py_setdict_Some _ _ n _ p o d cell Hd1 Hv). simpl. f_equal.
  unfold pop_local, push_local, set_locals, set_heap. simpl.
  rewrite (locals_py_name _ _ _ _ Hn), length_app. simpl.
  rewrite Nat.add_sub, take_app_length.
  rewrite <- (locals_py_name _ _ _ _ Hn). by destruct vm1.
Qed.

Lemma py_name_length vm s n vm1 :
  py_name vm s = Some (n, vm1) -> (length (names vm1) <= S (length (names vm)))%nat.
Proof.
  unfold py_name. destruct (index_of s (names vm)).
  - intros [= _ <-]. lia.
  - case_decide; [| discriminate]. intros [= _ <-]. simpl.
    rewrite length_app. simpl. lia.
Qed.

Lemma py_bindnativefunc_effect vm obj name f tmp0 :
  is_Some (dict_of vm obj) ->
  name ∈ names vm \/ Z.of_nat (length (names vm)) < 65535 ->
  exists vm' n,
    py_bindnativefunc vm obj name f tmp0 = Some vm' /\
    py_name2str vm' n = Some name /\
    py_getdict vm' obj n = Some (Some (nativefunc_cell f)) /\
    (forall m, m <> n -> py_getdict vm' obj m = py_getdict vm obj m) /\
    (forall r, load vm' r = load vm r) /\
    locals vm' = locals vm /\ stack vm' = stack vm /\
    length (heap vm') = length (heap vm) /\
    curr_exception vm' = curr_exception vm /\
    (length (names vm') <= S (length (names vm)))%nat.
Proof.
  intros [[[p o] d] Hd] Hroom.
  destruct (py_name_Some vm name Hroom) as (n & vm1 & Hn & Hs).
  pose proof (py_bindnativefunc_run vm obj name f tmp0 p o d n vm1 Hd Hn) as E.
  set (d' := <[n := nativefunc_cell f]> d) in *.
  set (vm' := set_heap vm1 _) in *.
  pose proof (py_name_only_names _ _ _ _ Hn) as E1.
  assert (L : forall r, load vm' r = load vm r).
  { intros r. by destruct (load_py_bindnativefunc _ _ _ _ _ _ r E). }
  destruct (dict_of_Some _ _ _ _ _ Hd) as (c & Hc & Hp & Hpl & Ho & Hdd).
  assert (Hd' : dict_of vm' obj = Some (p, set_ob_dict o (Some d'), d')).
  { eapply dict_of_intro; [by rewrite L | done | done | | done].
    unfold vm'. simpl. rewrite (heap_py_name _ _ _ _ Hn).
    apply list_lookup_insert_eq. by eapply lookup_lt_Some. }
  exists vm', n. split; [done |].
  split; [done |].
  split; [unfold py_getdict; rewrite Hd'; simpl; unfold d'; by rewrite lookup_insert_eq |].
  split.
  { intros m Hm. unfold py_getdict. rewrite Hd', Hd. simpl. unfold d'.
    by rewrite lookup_insert_ne. }
  split; [done |].
  split; [by destruct (load_py_bindnativefunc _ _ _ _ _ _ ref_retval E) |].
  split; [unfold vm'; simpl; by rewrite E1 |].
  split; [unfold vm'; simpl; rewrite length_insert; by rewrite (heap_py_name _ _ _ _ Hn) |].
  split; [unfold vm'; simpl; by rewrite E1 |].
  unfold vm'. simpl. exact (py_name_length _ _ _ _ Hn).
Qed.


Lemma pool_ids_unique vm n m s :
  pool_wf vm -> py_name2str vm n = Some s -> py_name2str vm m = Some s -> n = m.
Proof.
  intros [Hnd _] [Hn Hl]%py_name2str_Some [Hm Hl']%py_name2str_Some.
  pose proof (NoDup_lookup _ _ _ _ Hnd Hl Hl'). lia.
Qed.

(** X10.  Two bindings on the same object.  In a well-formed pool with room
    for two more names, binding [f1] under [name1] and then [f2] under
    [name2] succeeds; afterwards [name2] maps to [f2], and [name1] still
    maps to [f1] when the two names differ (they then have different ids),
    while for equal names the two ids are the same and the second binding
    has replaced the first. *)
Theorem two_bindings_on_one_object (vm : VM) (obj : py_Ref)
    (name1 name2 : string) (f1 f2 : py_CFunction) (tmp1 tmp2 : py_TValue) :
  pool_wf vm -> is_Some (dict_of vm obj) ->
  Z.of_nat (length (names vm)) + 2 <= 65535 ->
  exists vm1 vm2 n1 n2,
    py_bindnativefunc vm obj name1 f1 tmp1 = Some vm1 /\
    py_bindnativefunc vm1 obj name2 f2 tmp2 = Some vm2 /\
    py_name2str vm2 n1 = Some name1 /\ py_name2str vm2 n2 = Some name2 /\
    py_getdict vm2 obj n2 = Some (Some (nativefunc_cell f2)) /\
    (name1 <> name2 ->
       n1 <> n2 /\ py_getdict vm2 obj n1 = Some (Some (nativefunc_cell f1))) /\
    (name1 = name2 -> n1 = n2).
Proof.
  intros W Hd Hroom.
  destruct (py_bindnativefunc_effect vm obj name1 f1 tmp1 Hd ltac:(right; lia))
    as (vm1 & n1 & E1 & S1 & G1 & _ & _ & _ & _ & _ & _ & Hlen1).
  assert (Hd1 : is_Some (dict_of vm1 obj)).
  { unfold py_getdict in G1. destruct (dict_of vm1 obj); [eauto | discriminate]. }
  destruct (py_bindnativefunc_effect vm1 obj name2 f2 tmp2 Hd1 ltac:(right; lia))
    as (vm2 & n2 & E2 & S2 & G2 & O2 & _).
  destruct (pool_step_py_bindnativefunc _ _ _ _ _ _ E1) as [W1 _].
  destruct (pool_step_py_bindnativefunc _ _ _ _ _ _ E2) as [W2 P2].
  pose proof (py_name2str_prefix vm1 vm2 n1 name1 P2 S1) as S1'.
  exists vm1, vm2, n1, n2. repeat (split; [assumption |]). split.
  - intros Hne. assert (Hn : n1 <> n2) by congruence.
    split; [done |]. rewrite O2 by done. exact G1.
  - intros <-. eapply pool_ids_unique; [| exact S1' | exact S2]. auto.
Qed.

(** ** Binding a magic method *)

Lemma type_info_poke_magic vm T n c t :
  0 <= T ->
  type_info (poke vm (ref_magic T n) c) t
  = (fun ti => if decide (T = t)
               then set_magic ti (<[Z.to_nat n := c]> (magic ti)) else ti)
      <$> type_info vm t.
Proof.
  intros HT. unfold type_info. simpl. case_decide as Ht; [| done].
  destruct (decide (T = t)) as [-> | Hne].
  - by rewrite list_lookup_alter_eq.
  - rewrite list_lookup_alter_ne by lia. by destruct (types vm !! Z.to_nat t).
Qed.

Lemma type_info_poke_magic_base vm T n c t ti :
  0 <= T -> type_info vm t = Some ti ->
  exists ti', type_info (poke vm (ref_magic T n) c) t = Some ti' /\
              base ti' = base ti /\ length (magic ti') = length (magic ti).
Proof.
  intros HT Hti. rewrite type_info_poke_magic, Hti by done. simpl.
  case_decide; eexists; (split; [done |]); [| done].
  simpl. by rewrite length_insert.
Qed.

Lemma base_chain_poke_magic vm T n c t l :
  0 <= T -> base_chain vm t l -> base_chain (poke vm (ref_magic T n) c) t l.
Proof.
  intros HT. induction 1 as [t ti Hti Hb | t ti l Hti Hb Hc IH];
    destruct (type_info_poke_magic_base vm T n c t ti HT Hti) as (ti' & Hti' & Hb' & _).
  - eapply base_chain_root; [exact Hti' | congruence].
  - eapply base_chain_step; [exact Hti' | congruence |]. by rewrite Hb'.
Qed.

Lemma types_lookup_poke_magic vm T n c i ti' :
  types (poke vm (ref_magic T n) c) !! i = Some ti' ->
  exists ti, types vm !! i = Some ti /\ base ti' = base ti /\
             length (magic ti') = length (magic ti).
Proof.
  unfold poke, set_types. simpl.
  destruct (decide (Z.to_nat T = i)) as [<- | Hne].
  - rewrite list_lookup_alter_eq.
    destruct (types vm !! Z.to_nat T) as [ti|]; simpl; [| discriminate].
    intros [= <-]. exists ti. simpl. by rewrite length_insert.
  - rewrite list_lookup_alter_ne by done. eauto.
Qed.

Lemma registry_wf_poke_magic vm T n c :
  registry_wf vm -> registry_wf (poke vm (ref_magic T n) c).
Proof.
  intros H i ti' Hl Hi.
  destruct (types_lookup_poke_magic _ _ _ _ _ _ Hl) as (ti & Hti & Hb & _).
  rewrite Hb. by eapply H.
Qed.

Lemma magic_name_ok_poke_magic vm T n c name :
  magic_name_ok vm name -> magic_name_ok (poke vm (ref_magic T n) c) name.
Proof.
  intros [Hn H]. split; [done |]. intros i ti' Hl.
  destruct (types_lookup_poke_magic _ _ _ _ _ _ Hl) as (ti & Hti & _ & Hlen).
  rewrite Hlen. by eapply H.
Qed.

Lemma base_chain_head vm t l : base_chain vm t l -> exists rest, l = t :: rest.
Proof. destruct 1; eauto. Qed.

Lemma first_non_nil_reaches vm name T pre post c :
  load vm (py_tpgetmagic T name) = Some c -> py_isnil c = false ->
  (forall x y, x ∈ pre -> x <> T -> load vm (py_tpgetmagic x name) = Some y ->
               py_isnil y = true) ->
  first_non_nil vm name (pre ++ T :: post) = Some (py_tpgetmagic T name).
Proof.
  intros Hc Hn. induction pre as [| x pre IH]; intros Hpre.
  - cbn [app first_non_nil]. by rewrite Hc, Hn.
  - assert (IH' : first_non_nil vm name (pre ++ T :: post) = Some (py_tpgetmagic T name)).
    { apply IH. intros z y Hz. apply Hpre. by right. }
    cbn [app first_non_nil].
    destruct (load vm (py_tpgetmagic x name)) as [y|] eqn:Hy; [| done].
    destruct (decide (x = T)) as [->|Hne].
    + rewrite Hc in Hy. injection Hy as <-. by rewrite Hn.
    + by rewrite (Hpre x y ltac:(left) Hne Hy).
Qed.

Lemma first_non_nil_same vm vm' name l :
  (forall x, x ∈ l -> load vm' (py_tpgetmagic x name) = load vm (py_tpgetmagic x name)) ->
  first_non_nil vm' name l = first_non_nil vm name l.
Proof.
  induction l as [| x l IH]; intros H; [done |].
  cbn [first_non_nil]. rewrite (H x ltac:(left)).
  rewrite IH by (intros y Hy; apply H; by right). done.
Qed.

(** X11.  [py_bindmagic(T, name, f)], on a well-formed registry, writes a
    native-function cell for [f] into [T]'s own magic slot and keeps the
    registry well formed.  Afterwards [py_tpfindmagic(T, name)] returns
    that slot; so does [py_tpfindmagic(D, name)] for every type [D] whose
    base chain reaches [T] through types whose own slot is nil (the method
    is inherited), while for a type whose base chain does not contain [T]
    the lookup returns what it returned before. *)
Theorem py_bindmagic_is_inherited (vm : VM) (T : py_Type) (name : py_Name)
    (f : py_CFunction) :
  registry_wf vm -> magic_name_ok vm name ->
  1 <= T -> is_Some (type_info vm T) ->
  exists vm',
    py_bindmagic vm T name f = Some vm' /\
    load vm' (py_tpgetmagic T name) = Some (nativefunc_cell f) /\
    registry_wf vm' /\ magic_name_ok vm' name /\
    py_tpfindmagic vm' T name = Some (Some (py_tpgetmagic T name)) /\
    (forall D pre post,
       1 <= D -> base_chain vm D (pre ++ T :: post) ->
       (forall x y, x ∈ pre -> load vm (py_tpgetmagic x name) = Some y ->
                    py_isnil y = true) ->
       py_tpfindmagic vm' D name = Some (Some (py_tpgetmagic T name))) /\
    (forall D chain,
       1 <= D -> base_chain vm D chain -> T ∉ chain ->
       py_tpfindmagic vm' D name = py_tpfindmagic vm D name).
Proof.
  intros Hwf Hm HT [ti Hti].
  destruct (load_magic_Some vm name T ti Hm Hti) as [old Hold].
  set (cell := nativefunc_cell f).
  set (vm' := poke vm (py_tpgetmagic T name) cell).
  assert (E : py_bindmagic vm T name f = Some vm').
  { unfold py_bindmagic. rewrite py_newnativefunc_store. apply store_Some. eauto. }
  assert (L : load vm' (py_tpgetmagic T name) = Some cell)
    by (apply load_poke_eq; eauto).
  assert (Lne : forall x, x <> T ->
            load vm' (py_tpgetmagic x name) = load vm (py_tpgetmagic x name)).
  { intros x Hx. apply load_poke_ne; [eauto |]. unfold py_tpgetmagic. congruence. }
  assert (Hwf' : registry_wf vm') by (by apply registry_wf_poke_magic).
  assert (Hm' : magic_name_ok vm' name) by (by apply magic_name_ok_poke_magic).
  assert (Hlen : length (types vm') = length (types vm)).
  { unfold vm'. simpl. by rewrite length_alter. }
  assert (Find : forall D chain, 1 <= D -> base_chain vm D chain ->
            py_tpfindmagic vm' D name = Some (first_non_nil vm' name chain)).
  { intros D chain HD Hc.
    assert (Hc' : base_chain vm' D chain)
      by (apply base_chain_poke_magic; [lia | done]).
    apply tpfindmagic_walk_chain; [done | done |].
    pose proof (base_chain_length vm D chain Hwf HD Hc) as Hl.
    assert (is_Some (type_info vm D)) as [tD HtD].
    { apply (base_chain_valid _ _ _ Hc). inversion Hc; subst; by left. }
    apply type_info_Some in HtD as [_ HtD]. apply lookup_lt_Some in HtD. lia. }
  assert (Find0 : forall D chain, 1 <= D -> base_chain vm D chain ->
            py_tpfindmagic vm D name = Some (first_non_nil vm name chain)).
  { intros D chain HD Hc. apply tpfindmagic_walk_chain; [done | done |].
    pose proof (base_chain_length vm D chain Hwf HD Hc) as Hl.
    assert (is_Some (type_info vm D)) as [tD HtD].
    { apply (base_chain_valid _ _ _ Hc). inversion Hc; subst; by left. }
    apply type_info_Some in HtD as [_ HtD]. apply lookup_lt_Some in HtD. lia. }
  assert (Reach : forall D pre post,
            1 <= D -> base_chain vm D (pre ++ T :: post) ->
            (forall x y, x ∈ pre -> load vm (py_tpgetmagic x name) = Some y ->
                         py_isnil y = true) ->
            py_tpfindmagic vm' D name = Some (Some (py_tpgetmagic T name))).
  { intros D pre post HD Hc Hpre. rewrite (Find D _ HD Hc). f_equal.
    apply (first_non_nil_reaches vm' name T pre post cell L); [done |].
    intros x y Hx Hne Hy. rewrite Lne in Hy by done. by eapply Hpre. }
  exists vm'. split; [done |]. split; [done |]. split; [done |]. split; [done |].
  split; [| split; [exact Reach |]].
  - assert (Hc : base_chain vm T (ancestors vm T)).
    { apply ancestors_upto_chain; [done | done | eauto |].
      apply type_info_Some in Hti as [_ Hl]. apply lookup_lt_Some in Hl. lia. }
    destruct (base_chain_head _ _ _ Hc) as [rest Hrest]. rewrite Hrest in Hc.
    apply (Reach T [] rest HT Hc).
    intros x y Hx. by apply not_elem_of_nil in Hx.
  - intros D chain HD Hc Hnot. rewrite (Find D _ HD Hc), (Find0 D _ HD Hc).
    f_equal. apply first_non_nil_same. intros x Hx. apply Lne.
    intros ->. by apply Hnot.
Qed.

(** ** Cell addressing *)

(** X12.  Applied to an identifier [p] (as [py_arg(i)] applies it to
    [argv]) or to a parenthesised expression such as another
    [py_offset(..)], [py_offset(p, i)] steps 16 bytes per index: for an
    index in [0, 2^27) the result is [p + 16 * i], index [0] is [p]
    itself, offsets add up, and two different indices give addresses at
    least 16 bytes apart.  Applied to a sum [p + k] it does not: the macro
    leaves its first argument unparenthesised, so the result lies [k]
    bytes, not [k] cells, beyond [py_offset(p, i)]. *)
Theorem py_offset_stride (p i j k : Z) :
  0 <= i < 2 ^ 27 -> 0 <= j < 2 ^ 27 ->
  py_offset p i = p + 16 * i /\
  py_arg p i = p + 16 * i /\
  py_offset p 0 = p /\
  (i + j < 2 ^ 27 -> py_offset (py_offset p i) j = py_offset p (i + j)) /\
  (i <> j -> py_offset p i + 16 <= py_offset p j \/
             py_offset p j + 16 <= py_offset p i) /\
  py_offset_sum p k i = py_offset p i + k /\
  (k <> 0 -> py_offset_sum p k i <> py_offset (p + 16 * k) i).
Proof.
  intros Hi Hj.
  assert (K : forall n, 0 <= n < 2 ^ 27 -> py_offset p n = p + 16 * n).
  { intros n Hn. unfold py_offset. rewrite Z.shiftl_mul_pow2 by lia.
    rewrite to_int_small by (unfold INT_MAX; lia). lia. }
  split; [by apply K |]. split; [by apply K |].
  split; [rewrite K by lia; lia |].
  split; [| split; [| split]].
  - intros Hij. unfold py_offset at 1. rewrite Z.shiftl_mul_pow2 by lia.
    rewrite to_int_small by (unfold INT_MAX; lia). rewrite !K by lia. lia.
  - intros Hne. rewrite !K by lia. lia.
  - unfold py_offset_sum, py_offset. lia.
  - intros Hk. unfold py_offset_sum, py_offset. lia.
Qed.

(** ** Writes through different references *)

Lemma poke_comm vm r1 r2 c1 c2 :
  r1 <> r2 -> is_Some (load vm r1) -> is_Some (load vm r2) ->
  poke (poke vm r1 c1) r2 c2 = poke (poke vm r2 c2) r1 c1.
Proof.
  intros Hne [x1 H1] [x2 H2].
  destruct r1 as [i | i | i | p i | t | t n |], r2 as [j | j | j | q j | u | u m |];
    try reflexivity; try congruence;
    unfold poke, set_reg, set_stack, set_locals, set_heap, set_types; simpl;
    f_equal.
  - apply list_insert_insert_ne. congruence.
  - apply list_insert_insert_ne. congruence.
  - apply list_insert_insert_ne. congruence.
  - destruct (decide (p = q)) as [-> | Hpq].
    + rewrite !list_alter_alter_eq. apply list_alter_ext; [| done].
      intros o _. unfold set_slot_cells. simpl. f_equal.
      apply list_insert_insert_ne. congruence.
    + by rewrite list_alter_alter_ne.
  - simpl in H1, H2. inv_bind H1. inv_bind H2.
    apply type_info_Some in E as [Ht _]. apply type_info_Some in E0 as [Hu _].
    rewrite list_alter_alter_ne; [done |]. intros Heq. apply Hne. f_equal. lia.
  - destruct (decide (Z.to_nat t = Z.to_nat u)) as [-> | Htu].
    + rewrite !list_alter_alter_eq. by apply list_alter_ext.
    + by rewrite list_alter_alter_ne.
  - destruct (decide (Z.to_nat t = Z.to_nat u)) as [-> | Htu].
    + rewrite !list_alter_alter_eq. by apply list_alter_ext.
    + by rewrite list_alter_alter_ne.
  - simpl in H1, H2. inv_bind H1. inv_bind H2.
    apply type_info_Some in E as [Ht _]. apply type_info_Some in E0 as [Hu _].
    case_decide as Hn; [| discriminate]. case_decide as Hm; [| discriminate].
    destruct (decide (Z.to_nat t = Z.to_nat u)) as [Heq | Htu].
    + rewrite Heq, !list_alter_alter_eq. apply list_alter_ext; [| done].
      intros ti _. unfold set_magic. simpl. f_equal.
      apply list_insert_insert_ne. intros Hnm. apply Hne. f_equal; lia.
    + by rewrite list_alter_alter_ne.
Qed.

(** X13.  Immediate constructors applied through two different references
    commute: the two orders give the same state, and are undefined
    together. *)
Theorem immediate_constructors_commute (vm : VM) (c1 c2 : api_call)
    (r1 r2 : py_Ref) :
  immediate_call c1 = Some r1 -> immediate_call c2 = Some r2 -> r1 <> r2 ->
  run_calls vm [c1; c2] = run_calls vm [c2; c1].
Proof.
  intros Hc1 Hc2 Hne.
  assert (Step : forall vm0 c r x, immediate_call c = Some r -> load vm0 r = Some x ->
            run_call vm0 c = Some (poke vm0 r (immediate_cell c x))).
  { intros vm0 c r x Hc Hx. rewrite (immediate_call_store vm0 c r x Hc Hx).
    apply store_Some. eauto. }
  cbn [run_calls].
  destruct (load vm r1) as [x1|] eqn:H1; destruct (load vm r2) as [x2|] eqn:H2.
  - rewrite (Step vm c1 r1 x1 Hc1 H1), (Step vm c2 r2 x2 Hc2 H2). simpl.
    rewrite (Step _ c2 r2 x2 Hc2) by (rewrite load_poke_ne; eauto).
    rewrite (Step _ c1 r1 x1 Hc1) by (rewrite load_poke_ne; eauto).
    simpl. f_equal. apply poke_comm; eauto.
  - rewrite (Step vm c1 r1 x1 Hc1 H1), (immediate_call_invalid vm c2 r2 Hc2 H2).
    simpl. rewrite (immediate_call_invalid _ c2 r2 Hc2); [done |].
    rewrite load_poke_ne; eauto.
  - rewrite (Step vm c2 r2 x2 Hc2 H2), (immediate_call_invalid vm c1 r1 Hc1 H1).
    simpl. rewrite (immediate_call_invalid _ c1 r1 Hc1); [done |].
    rewrite load_poke_ne; eauto.
  - by rewrite (immediate_call_invalid vm c1 r1 Hc1 H1),
       (immediate_call_invalid vm c2 r2 Hc2 H2).
Qed.

(** * The further properties at concrete inputs *)


Lemma last_full_constructor_wins_witness :
  is_Some (load example_vm (ref_reg 0)) /\
  run_calls example_vm
    [call_newnone (ref_reg 0); call_newnull (ref_reg 0); call_newint (ref_reg 0) 5]
  = py_newint example_vm (ref_reg 0) 5.
Proof.
  assert (H : is_Some (load example_vm (ref_reg 0))) by (eexists; reflexivity).
  split; [exact H |].
  apply (last_full_constructor_wins example_vm (ref_reg 0)
           [call_newnone (ref_reg 0); call_newnull (ref_reg 0)]
           (call_newint (ref_reg 0) 5) H).
  - repeat constructor.
  - reflexivity.
  - reflexivity.
Defined.

Lemma payloadless_constructors_keep_payload_witness :
  load example_vm (ref_tpobject 1) = Some (mk_TValue tp_type true (_obj 0%nat)) /\
  (exists vm', py_newnone example_vm (ref_tpobject 1) = Some vm' /\
     load vm' (ref_tpobject 1) = Some (mk_TValue tp_none_type false (_obj 0%nat))) /\
  forall v v2,
    py_newnone example_vm (ref_tpobject 1) = Some v ->
    py_newnone example_vm (ref_tpobject 2) = Some v2 ->
    load v (ref_tpobject 1) <> load v2 (ref_tpobject 2).
Proof.
  split; [reflexivity |].
  destruct (payloadless_constructors_keep_payload example_vm (ref_tpobject 1)
              (mk_TValue tp_type true (_obj 0%nat)) eq_refl) as (N & _ & _ & D).
  split; [exact N |].
  intros v v2.
  apply (D example_vm (ref_tpobject 2) (mk_TValue tp_type true (_obj 1%nat))
           v v2 0%nat 1%nat); [reflexivity | reflexivity | reflexivity | lia].
Defined.


Lemma example_cells_ok : cells_ok example_vm.
Proof.
  assert (P : forall k, (k < 3)%nat ->
            cell_ok example_vm (mk_TValue tp_type true (_obj k))).
  { intros k Hk _. exists k, type_object. split; [done |]. split; [| done].
    destruct k as [| [| [| k]]]; [done | done | done | lia]. }
  intros r c Hc. destruct r as [i | i | i | p i | t | t n |]; simpl in Hc.
  - destruct i as [| [| [| i]]]; simpl in Hc; try discriminate Hc;
      injection Hc as <-; apply cell_ok_not_ptr.
  - destruct i as [| [| [| i]]]; simpl in Hc; try discriminate Hc;
      injection Hc as <-; apply cell_ok_not_ptr.
  - discriminate Hc.
  - destruct p as [| [| [| p]]]; simpl in Hc; discriminate Hc.
  - unfold type_info in Hc.
    destruct (decide (0 <= t)); [| simpl in Hc; discriminate Hc]. simpl in Hc.
    destruct (Z.to_nat t) as [| [| [| [| k]]]]; simpl in Hc; try discriminate Hc;
      injection Hc as <-; first [apply cell_ok_not_ptr | apply P; lia].
  - unfold type_info in Hc.
    destruct (decide (0 <= t)); [| simpl in Hc; discriminate Hc].
    destruct (decide (0 <= n));
      [| destruct (types example_vm !! Z.to_nat t); simpl in Hc; discriminate Hc].
    simpl in Hc.
    destruct (Z.to_nat t) as [| [| [| [| k]]]]; simpl in Hc; try discriminate Hc;
      destruct (Z.to_nat n) as [| [| [| m]]]; simpl in Hc; try discriminate Hc;
      injection Hc as <-; apply cell_ok_not_ptr.
  - injection Hc as <-. apply cell_ok_not_ptr.
Defined.

Lemma cell_invariant_preserved_witness :
  cells_ok example_vm /\
  exists vm',
    run_calls example_vm
      [call_newbytes (ref_reg 0) [1; 2; 3] 3;
       call_newslice (ref_reg 1) (ref_reg 0) (ref_reg 1) (ref_reg 2);
       call_bindmethod 3 "foo" 555 nil_cell;
       call_push (ref_reg 1)] = Some vm' /\
    cells_ok vm'.
Proof.
  split; [exact example_cells_ok |].
  match goal with |- exists vm', ?r = Some vm' /\ _ =>
    destruct r as [vm' |] eqn:E; [| vm_compute in E; discriminate E] end.
  exists vm'. split; [reflexivity |].
  refine (cell_invariant_preserved _ example_vm vm' example_cells_ok _ E).
  repeat (apply Forall_cons; split; [reflexivity |]). constructor.
Defined.

Lemma py_newnull_breaks_cell_invariant_witness :
  cell_ok example_vm (mk_TValue tp_type true (_obj 0%nat)) /\
  exists vm' c', py_newnull example_vm (ref_tpobject 1) = Some vm' /\
                 load vm' (ref_tpobject 1) = Some c' /\ ~ cell_ok vm' c'.
Proof.
  destruct (py_newnull_breaks_cell_invariant example_vm (ref_tpobject 1)
              (mk_TValue tp_type true (_obj 0%nat)) 0%nat type_object
              eq_refl eq_refl eq_refl eq_refl eq_refl ltac:(discriminate))
    as (Hok & vm' & c' & E & L & Hbad & _).
  split; [exact Hok |]. exists vm', c'. auto.
Defined.

Lemma py_newstr_reads_to_first_zero_witness :
  Forall (fun b => b <> 0) [104; 105] /\
  py_newstr example_vm (ref_reg 0) [104; 105; 0; 33]
  = py_newstrn example_vm (ref_reg 0) [104; 105] 2.
Proof.
  assert (H : Forall (fun b => b <> 0) [104; 105])
    by (repeat constructor; discriminate).
  split; [exact H |].
  refine (proj1 (py_newstr_reads_to_first_zero example_vm (ref_reg 0)
                   [104; 105] [33] H _)).
  unfold INT_MAX. simpl. lia.
Defined.

Lemma py_newbytes_copies_prefix_witness :
  is_Some (load example_vm (ref_reg 0)) /\
  (exists vm', py_newbytes example_vm (ref_reg 0) [1; 2; 3; 4] 2 = Some vm' /\
               ud_bytes vm' 3 = Some [2; 0; 0; 0; 1; 2] /\
               py_newbytes example_vm (ref_reg 0) [1; 2; 9] 2 = Some vm') /\
  INT_MAX < sizeof_int + (INT_MAX - 3) /\
  py_newbytes example_vm (ref_reg 0) [1; 2; 3; 4] (INT_MAX - 3) = None.
Proof.
  assert (H : is_Some (load example_vm (ref_reg 0))) by (eexists; reflexivity).
  assert (Hw : INT_MAX < sizeof_int + (INT_MAX - 3))
    by (unfold sizeof_int, INT_MAX; lia).
  split; [exact H |]. split; [| split; [exact Hw |]].
  - destruct (py_newbytes_copies_prefix example_vm (ref_reg 0) [1; 2; 3; 4] 2)
      as [Hok _].
    destruct (Hok H) as (vm' & E & U & P & _);
      [simpl; lia | unfold sizeof_int, INT_MAX; lia |].
    exists vm'. split; [exact E |]. split; [exact U |].
    apply P; [reflexivity | simpl; lia].
  - destruct (py_newbytes_copies_prefix example_vm (ref_reg 0) [1; 2; 3; 4]
                (INT_MAX - 3)) as [_ Hwrap].
    apply Hwrap; [exact Hw | unfold INT_MAX; lia].
Defined.


Lemma two_bindings_on_one_object_witness :
  pool_wf example_vm /\ is_Some (dict_of example_vm (ref_tpobject 3)) /\
  exists vm2 n1 n2,
    (vm1 ← py_bindnativefunc example_vm (ref_tpobject 3) "foo" 555 nil_cell;
     py_bindnativefunc vm1 (ref_tpobject 3) "bar" 556 nil_cell) = Some vm2 /\
    n1 <> n2 /\
    py_getdict vm2 (ref_tpobject 3) n1 = Some (Some (nativefunc_cell 555)) /\
    py_getdict vm2 (ref_tpobject 3) n2 = Some (Some (nativefunc_cell 556)).
Proof.
  assert (H : is_Some (dict_of example_vm (ref_tpobject 3))) by (eexists; reflexivity).
  split; [exact example_pool_wf |]. split; [exact H |].
  destruct (two_bindings_on_one_object example_vm (ref_tpobject 3) "foo" "bar"
              555 556 nil_cell nil_cell example_pool_wf H)
    as (vm1 & vm2 & n1 & n2 & E1 & E2 & _ & _ & G2 & Hd & _); [simpl; lia |].
  destruct (Hd ltac:(discriminate)) as [Hn G1].
  exists vm2, n1, n2. rewrite E1. simpl. auto.
Defined.

Lemma py_bindmagic_is_inherited_witness :
  registry_wf example_vm /\ magic_name_ok example_vm 2 /\
  is_Some (type_info example_vm 1) /\
  py_tpfindmagic example_vm 2 2 = Some None /\
  exists vm',
    py_bindmagic example_vm 1 2 777 = Some vm' /\
    py_tpfindmagic vm' 1 2 = Some (Some (py_tpgetmagic 1 2)) /\
    py_tpfindmagic vm' 2 2 = Some (Some (py_tpgetmagic 1 2)).
Proof.
  assert (H : is_Some (type_info example_vm 1)) by (eexists; reflexivity).
  split; [exact example_registry_wf |]. split; [exact example_magic_name_ok |].
  split; [exact H |]. split; [reflexivity |].
  destruct (py_bindmagic_is_inherited example_vm 1 2 777 example_registry_wf
              example_magic_name_ok ltac:(lia) H)
    as (vm' & E & _ & _ & _ & F1 & Fsub & _).
  exists vm'. split; [exact E |]. split; [exact F1 |].
  apply (Fsub 2 [2] []); [lia | |].
  - eapply base_chain_step; [reflexivity | discriminate |].
    eapply base_chain_root; reflexivity.
  - intros x y Hx Hy. apply list_elem_of_singleton in Hx. subst x.
    injection Hy as <-. reflexivity.
Defined.

Lemma py_offset_stride_witness :
  0 <= 3 < 2 ^ 27 /\ 0 <= 5 < 2 ^ 27 /\
  py_arg 4096 3 = 4144 /\ py_offset (py_offset 4096 3) 5 = py_offset 4096 8 /\
  py_offset_sum 4096 1 3 <> py_offset (4096 + 16 * 1) 3.
Proof.
  assert (H3 : 0 <= 3 < 2 ^ 27) by lia. assert (H5 : 0 <= 5 < 2 ^ 27) by lia.
  destruct (py_offset_stride 4096 3 5 1 H3 H5) as (_ & A & _ & C & _ & _ & S).
  split; [exact H3 |]. split; [exact H5 |]. split; [exact A |].
  split; [apply C; lia | apply S; lia].
Defined.

Lemma immediate_constructors_commute_witness :
  ref_reg 0 <> ref_reg 1 /\
  run_calls example_vm [call_newint (ref_reg 0) 1; call_newnull (ref_reg 1)]
  = run_calls example_vm [call_newnull (ref_reg 1); call_newint (ref_reg 0) 1].
Proof.
  assert (H : ref_reg 0 <> ref_reg 1) by discriminate.
  split; [exact H |].
  exact (immediate_constructors_commute example_vm (call_newint (ref_reg 0) 1)
           (call_newnull (ref_reg 1)) (ref_reg 0) (ref_reg 1) eq_refl eq_refl H).
Defined.
